(** * GaussianSpeechDetection: the detection pipeline and its transform

    A shallow embedding of [src/lib/FFT.ts] (class [FFT]) and of
    [src/lib/AudioDetector.ts] (class [GaussianDFTAudioDetector]).

    Number model.  A JavaScript [number] is modelled by an exact real:
    rounding to binary64 (and to binary32 when a value is stored in a
    [Float32Array]) and overflow are not modelled.  [Math.cos], [Math.sin],
    [Math.sqrt], [Math.exp], [Math.log] and [Math.pow(x, 2)] are the real
    functions [cos], [sin], [sqrt], [exp], [ln] and [x ^ 2].  A quotient
    whose divisor may be zero on an input the code accepts is written with
    [jsdiv], which yields [None] where IEEE arithmetic yields a value that is
    not a finite real.  Arrays are lists; a loop that fills a fresh array
    cell by cell is a [map] over the index range, a loop that accumulates
    into cells of an existing array is a [fold_left] of in-place updates.
    A read past the end of an array ([undefined], which arithmetic turns
    into NaN) is not modelled: [nth] then yields [0], and the properties
    below are stated for vectors of the shape the pipeline gives them.  The
    one exception needs no care: [sigmaN[j] || Number.EPSILON] is
    [Number.EPSILON] both for a zero and for a missing [sigmaN[j]]. *)

From Stdlib Require Import Reals Lra Lia List Arith Bool.
From Stdlib Require String.
Import ListNotations.

Open Scope R_scope.

(** ** Outcomes of a call: a value, or one of the errors the code throws *)

Inductive error : Type :=
| BadFFTSize          (* 'FFT size must be a positive power of 2' *)
| InputSizeMismatch   (* 'Input size must match FFT size (...)' *)
| AudioTooShort       (* 'Audio file is too short for analysis.' *)
| NotEnoughFrames     (* 'Not enough frames for noise estimation.' *)
| TypeError.          (* reading a property of [undefined] *)

Inductive outcome (A : Type) : Type :=
| Returned (a : A)
| Thrown (e : error).

Arguments Returned {A} a.
Arguments Thrown {A} e.

Definition bind {A B : Type} (o : outcome A) (k : A -> outcome B) : outcome B :=
  match o with
  | Returned a => k a
  | Thrown e => Thrown e
  end.

Notation "x <- c ;; k" := (bind c (fun x => k))
  (at level 61, c at next level, right associativity).

(** ** Numbers *)

(** [Number.EPSILON], the gap between 1 and the next binary64 number. *)
Definition EPSILON : R := / 2 ^ 52.

(** [x || d] on numbers: [d] when [x] is falsy, that is zero. *)
Definition orElse (x d : R) : R := if Req_dec_T x 0 then d else x.

(** [a / b] where [b] may be zero: [0 / 0] is NaN and [a / 0] is an
    infinity, neither of which is a real number. *)
Definition jsdiv (a b : R) : option R :=
  if Req_dec_T b 0 then None else Some (a / b).

(** ** Arrays *)

(** [l[i] = v]; a write past the end of a typed array is ignored. *)
Fixpoint upd (l : list R) (i : nat) (v : R) : list R :=
  match l, i with
  | [], _ => []
  | _ :: t, O => v :: t
  | a :: t, S i' => a :: upd t i' v
  end.

(** [arr.map((x, i) => f(x, i))], with the index counted from [i0]. *)
Fixpoint mapi_from {A B : Type} (f : nat -> A -> B) (i0 : nat) (l : list A) : list B :=
  match l with
  | [] => []
  | a :: t => f i0 a :: mapi_from f (S i0) t
  end.

Definition mapi {A B : Type} (f : nat -> A -> B) (l : list A) : list B :=
  mapi_from f 0 l.

(** [arr.slice(b, e)] for [0 <= b <= e]. *)
Definition slice {A : Type} (l : list A) (b e : nat) : list A :=
  firstn (e - b) (skipn b l).

(** The sum of [f 0 .. f (n-1)]. *)
Fixpoint Rsum (n : nat) (f : nat -> R) : R :=
  match n with
  | O => 0
  | S n' => Rsum n' f + f n'
  end.

(** ** Transform engine: [class FFT] *)

Module FFT.

Record t : Type := mk {
  size : nat;
  cosTable : list R;
  sinTable : list R
}.

(** [constructor(size)]: rejects a size that is not a positive power of
    two, then tabulates the cosine and sine of [2*PI*i/size]. *)
Definition new (n : nat) : outcome t :=
  if (n <=? 0)%nat || negb (Nat.land n (n - 1) =? 0)%nat then Thrown BadFFTSize
  else
    let angle (i : nat) := (2 * PI * INR i) / INR n in
    Returned {| size := n;
                cosTable := map (fun i => cos (angle i)) (seq 0 n);
                sinTable := map (fun i => sin (angle i)) (seq 0 n) |}.

(** The state of the two work arrays [real] and [imag]. *)
Definition work : Type := (list R * list R)%type.

(** One pass of the inner loop body, lines 37-39. *)
Definition step (n : nat) (input : list R) (i : nat) (w : work) (j : nat) : work :=
  let '(real, imag) := w in
  let angle := (2 * PI * INR i * INR j) / INR n in
  (upd real i (nth i real 0 + nth j input 0 * cos angle),
   upd imag i (nth i imag 0 - nth j input 0 * sin angle)).

(** The nested loops of lines 35-41. *)
Definition loops (n : nat) (input : list R) (w : work) : work :=
  fold_left (fun w i => fold_left (step n input i) (seq 0 n) w) (seq 0 n) w.

(** [forward(input)].  [real] starts as a copy of the input (line 32),
    [imag] as zeros; the magnitudes are taken after the loops. *)
Definition forward (fft : t) (input : list R) : outcome (list R) :=
  let n := size fft in
  if negb (length input =? n)%nat then Thrown InputSizeMismatch
  else
    let real0 := input in
    let imag0 := repeat 0 n in
    let '(real, imag) := loops n input (real0, imag0) in
    Returned (map (fun i => sqrt (nth i real 0 * nth i real 0
                                  + nth i imag 0 * nth i imag 0))
                  (seq 0 n)).

End FFT.

(** ** The detector: [class GaussianDFTAudioDetector] *)

Module Detector.

(** The fields of the class.  Lengths, hops and frame counts are natural
    numbers here; the code types them as [number]. *)
Record t : Type := mk {
  frameLength : nat;
  hopLength : nat;
  sampleRate : nat;
  fft : FFT.t
}.

(** [constructor(frameLength = 1024, hopLength = 512, sampleRate = 16000)]. *)
Definition new (frameLength hopLength sampleRate : nat) : outcome t :=
  f <- FFT.new frameLength ;;
  Returned {| frameLength := frameLength; hopLength := hopLength;
              sampleRate := sampleRate; fft := f |}.

Definition default : outcome t := new 1024 512 16000.

(** *** Framer *)

(** The loop of lines 33-36.  [hopLength] may be zero, in which case the
    loop never ends; [fuel] bounds the number of iterations and [None]
    means the bound was reached.  The guard of [frameSignal] makes
    [length signal - F] an exact difference. *)
Fixpoint frameLoop (fuel F h : nat) (signal : list R) (i : nat)
    (frames : list (list R)) : option (list (list R)) :=
  match fuel with
  | O => None
  | S fuel' =>
      if (i <? length signal - F)%nat then
        frameLoop fuel' F h signal (i + h) (frames ++ [slice signal i (i + F)])
      else Some frames
  end.

(** [frameSignal(signal)], lines 27-38. *)
Definition frameSignal (fuel : nat) (d : t) (signal : list R)
    : option (outcome (list (list R))) :=
  if (length signal <? frameLength d)%nat then Some (Thrown AudioTooShort)
  else option_map Returned
         (frameLoop fuel (frameLength d) (hopLength d) signal 0 []).

(** *** Windower *)

(** Line 44: the Hann coefficient of index [i] in a frame of length [L]. *)
Definition windowCoeff (L i : nat) : option R :=
  option_map (fun q => 0.5 * (1 - cos q)) (jsdiv (2 * PI * INR i) (INR L - 1)).

(** [applyWindow(frame)], lines 40-47; [None] is a sample that is NaN. *)
Definition applyWindow (frame : list R) : list (option R) :=
  let window := map (windowCoeff (length frame)) (seq 0 (length frame)) in
  mapi (fun i x => option_map (fun w => x * w) (nth i window None)) frame.

(** *** Noise estimator *)

(** Lines 65-69: the squares of one frame are added into [variance]. *)
Definition accumulate (variance frame : list R) : list R :=
  fold_left (fun v j => upd v j (nth j v 0 + nth j frame 0 ^ 2))
            (seq 0 (length variance)) variance.

(** [estimateNoiseVariance(features, nNoiseFrames = 10)], lines 57-72. *)
Definition estimateNoiseVariance (features : list (list R)) (nNoiseFrames : nat)
    : outcome (list R) :=
  let numFramesToUse := Nat.min (length features) nNoiseFrames in
  if (numFramesToUse =? 0)%nat then Thrown NotEnoughFrames
  else
    let variance0 := repeat 0 (length (nth 0 features [])) in
    let variance :=
      fold_left (fun v i => accumulate v (nth i features []))
                (seq 0 numFramesToUse) variance0 in
    Returned (map (fun v => v / INR numFramesToUse) variance).

(** *** SNR estimator *)

(** Lines 79-80: the initial estimate from the first frame. *)
Definition initialXi (firstFrame sigmaN : list R) : list R :=
  let gamma := mapi (fun j y => y ^ 2 / orElse (nth j sigmaN 0) EPSILON) firstFrame in
  map (fun g => Rmax (g - 1) 0) gamma.

(** Lines 89-93: one bin of the decision-directed recursion. *)
Definition nextXiBin (alpha prevXiJ sigmaNj y : R) : R :=
  let sigmaNJ := orElse sigmaNj EPSILON in
  let ampPrev := sqrt (prevXiJ * sigmaNJ) in
  let gammaCurrent := y ^ 2 / sigmaNJ in
  alpha * (ampPrev ^ 2 / sigmaNJ) + (1 - alpha) * Rmax (gammaCurrent - 1) 0.

(** Lines 84-96: the body of the loop over [m]. *)
Definition snrStep (features : list (list R)) (sigmaN : list R) (alpha : R)
    (xi : list (list R)) (m : nat) : list (list R) :=
  let frame := nth m features [] in
  let prevXi := nth (m - 1) xi [] in
  let newXi :=
    map (fun j => nextXiBin alpha (nth j prevXi 0) (nth j sigmaN 0) (nth j frame 0))
        (seq 0 (length frame)) in
  xi ++ [newXi].

(** [estimatePrioriSNR(features, sigmaN, alpha = 0.98)], lines 74-100;
    [features[0]] of an empty array is [undefined], whose [map] throws. *)
Definition estimatePrioriSNR (features : list (list R)) (sigmaN : list R) (alpha : R)
    : outcome (list (list R)) :=
  match features with
  | [] => Thrown TypeError
  | firstFrame :: _ =>
      Returned (fold_left (snrStep features sigmaN alpha)
                          (seq 1 (length features - 1))
                          [initialXi firstFrame sigmaN])
  end.

Definition defaultAlpha : R := 0.98.
Definition defaultNoiseFrames : nat := 10.

(** *** Speech decision *)

Record decision : Type := mkDecision {
  speechFrames : list bool;
  logLikelihood : list R
}.

(** Lines 125-130: the likelihood ratio [L] of one bin. *)
Definition binLikelihood (xiMJ sigmaNj y : R) : R :=
  let sigmaS := xiMJ * sigmaNj in
  let y2 := y ^ 2 in
  let gamma := y2 / orElse sigmaNj EPSILON in
  let xiJ := sigmaS / orElse sigmaNj EPSILON in
  (1 / (1 + xiJ)) * exp ((gamma * xiJ) / (1 + xiJ)).

(** Lines 122-132: the sum accumulated over the bins of frame [m]. *)
Definition sumLogL (frame xiM sigmaN : list R) : R :=
  fold_left
    (fun acc j =>
       acc + ln (Rmax (binLikelihood (nth j xiM 0) (nth j sigmaN 0) (nth j frame 0))
                      EPSILON))
    (seq 0 (length frame)) 0.

(** Line 134. *)
Definition avgLogL (frame xiM sigmaN : list R) : R :=
  sumLogL frame xiM sigmaN / INR (length frame).

(** [a > b] as a boolean. *)
Definition gtb (a b : R) : bool := if Rlt_dec b a then true else false.

(** Line 136: [avgLogL > Math.log(threshold)].  [Math.log(0)] is
    [-Infinity], below every real; the logarithm of a negative number is
    NaN, and a comparison with NaN is false. *)
Definition aboveLogThreshold (a threshold : R) : bool :=
  if Rlt_dec 0 threshold then gtb a (ln threshold)
  else if Req_dec_T threshold 0 then true
  else false.

(** Lines 120-137: the loop over the frames. *)
Definition decideStep (features xi : list (list R)) (sigmaN : list R) (threshold : R)
    (d : decision) (m : nat) : decision :=
  let frame := nth m features [] in
  let a := avgLogL frame (nth m xi []) sigmaN in
  {| speechFrames := speechFrames d ++ [aboveLogThreshold a threshold];
     logLikelihood := logLikelihood d ++ [a] |}.

Definition decide (features xi : list (list R)) (sigmaN : list R) (threshold : R)
    : decision :=
  fold_left (decideStep features xi sigmaN threshold)
            (seq 0 (length features))
            {| speechFrames := []; logLikelihood := [] |}.

Definition defaultThreshold : R := 0.5.

(** Lines 114-139 of [detectSpeech]: from the spectra to the decision. *)
Definition detectFromFeatures (features : list (list R)) (threshold : option R)
    : outcome decision :=
  let threshold := match threshold with Some t => t | None => defaultThreshold end in
  sigmaN <- estimateNoiseVariance features defaultNoiseFrames ;;
  xi <- estimatePrioriSNR features sigmaN defaultAlpha ;;
  Returned (decide features xi sigmaN threshold).

(** *** Feature extraction *)

(** The entries of [l], unless one of them is missing. *)
Fixpoint allFinite {A : Type} (l : list (option A)) : option (list A) :=
  match l with
  | [] => Some []
  | Some x :: t => option_map (cons x) (allFinite t)
  | None :: _ => None
  end.

(** [arr.map(f)] where [f] may throw: the first throw ends the call. *)
Fixpoint mapThrowing {A B : Type} (f : A -> outcome B) (l : list A) : outcome (list B) :=
  match l with
  | [] => Returned []
  | a :: t => b <- f a ;; bs <- mapThrowing f t ;; Returned (b :: bs)
  end.

(** Lines 50-54: the spectrum of one frame, [None] when it holds a NaN.
    [forward] checks the length of the windowed frame even when a sample
    is NaN; the end of the slice, [frameLength / 2 + 1], is truncated to an
    integer by [slice]. *)
Definition frameFeatures (d : t) (frame : list R) : outcome (option (list R)) :=
  let windowedFrame := applyWindow frame in
  match allFinite windowedFrame with
  | Some w =>
      dft <- FFT.forward (fft d) w ;;
      Returned (Some (slice dft 0 (frameLength d / 2 + 1)))
  | None =>
      if negb (length windowedFrame =? FFT.size (fft d))%nat
      then Thrown InputSizeMismatch
      else Returned None
  end.

(** [extractDFTFeatures(frames)], lines 49-55. *)
Definition extractDFTFeatures (d : t) (frames : list (list R))
    : outcome (list (option (list R))) :=
  mapThrowing (frameFeatures d) frames.

(** *** The whole detection *)

(** What [detectSpeech] needs of a [File]: its MIME type and, standing for
    the browser's decoder, the first channel of the decoded audio ([None]
    when [arrayBuffer] or [decodeAudioData] rejects). *)
Record File : Type := mkFile {
  type : String.string;
  channelData : option (list R)
}.

Inductive failure : Type :=
| NotAudioFile            (* 'Please provide a valid audio file.' *)
| DecodeFailed            (* 'Failed to decode audio file. ...' *)
| Pipeline (e : error).

(** How a call of [detectSpeech] ends: with a result, with an error,
    not within the fuel given to the framing loop, or with a result that
    holds a NaN, which the real numbers cannot show. *)
Inductive answer (A : Type) : Type :=
| Resolved (a : A)
| Rejected (f : failure)
| Unfinished
| NotReal.

Arguments Resolved {A} a.
Arguments Rejected {A} f.
Arguments Unfinished {A}.
Arguments NotReal {A}.

Module Mime.
Import String.
(** The prefix tested on line 106. *)
Definition audioPrefix : string := "audio/"%string.
(** [type.startsWith('audio/')]. *)
Definition isAudio (type : string) : bool := prefix audioPrefix type.
End Mime.

(** [getAudioData(file)], lines 16-25. *)
Definition getAudioData (file : File) : answer (list R) :=
  match channelData file with
  | Some audio => Resolved audio
  | None => Rejected DecodeFailed
  end.

(** [detectSpeech(file, threshold = 0.5)], lines 102-140. *)
Definition detectSpeech (fuel : nat) (d : t) (file : File) (threshold : option R)
    : answer decision :=
  if negb (Mime.isAudio (type file)) then Rejected NotAudioFile
  else
    match getAudioData file with
    | Resolved audio =>
        match frameSignal fuel d audio with
        | None => Unfinished
        | Some (Thrown e) => Rejected (Pipeline e)
        | Some (Returned frames) =>
            match extractDFTFeatures d frames with
            | Thrown e => Rejected (Pipeline e)
            | Returned spectra =>
                match allFinite spectra with
                | None => NotReal
                | Some features =>
                    match detectFromFeatures features threshold with
                    | Returned r => Resolved r
                    | Thrown e => Rejected (Pipeline e)
                    end
                end
            end
        end
    | Rejected f => Rejected f
    | Unfinished => Unfinished
    | NotReal => NotReal
    end.

End Detector.

(** ** The page: [App.tsx] *)

Module App.

(** Lines 86-87 and 102-103 (and line 394 of the single-detector page):
    the share of speech frames, in percent; [None] is the NaN of [0 / 0]. *)
Definition speechPercentage (speechFrames : list bool) : option R :=
  option_map (fun q => q * 100)
             (jsdiv (INR (length (filter (fun b => b) speechFrames)))
                    (INR (length speechFrames))).

Record chartData : Type := mkChart {
  labels : list nat;
  logLikelihoodData : list R;
  speechData : list R
}.

(** [createChartData(results)], lines 139-159: the labels [0 .. n-1], the
    log-likelihoods and the decisions as 1 and 0; [null] without results. *)
Definition createChartData (results : option Detector.decision) : option chartData :=
  match results with
  | None => None
  | Some r =>
      Some {| labels := seq 0 (length (Detector.logLikelihood r));
              logLikelihoodData := Detector.logLikelihood r;
              speechData := map (fun v : bool => if v then 1 else 0)
                                (Detector.speechFrames r) |}
  end.

(** The bounds of the y axis in [chartOptions], lines 175-180. *)
Definition yMin : R := -2.
Definition yMax : R := 2.

End App.

(** ** The discrete Fourier transform *)

(** Complex numbers, as pairs of reals. *)
Record C : Type := mkC { Re : R; Im : R }.

Definition C0 : C := mkC 0 0.
Definition RtoC (r : R) : C := mkC r 0.
Definition Cadd (z w : C) : C := mkC (Re z + Re w) (Im z + Im w).
Definition Csub (z w : C) : C := mkC (Re z - Re w) (Im z - Im w).
Definition Cmul (z w : C) : C :=
  mkC (Re z * Re w - Im z * Im w) (Re z * Im w + Im z * Re w).

(** [|z|]. *)
Definition Cmod (z : C) : R := sqrt (Re z * Re z + Im z * Im z).

(** [e^{i theta}]. *)
Definition expi (theta : R) : C := mkC (cos theta) (sin theta).

(** The sum of [f 0 .. f (n-1)]. *)
Fixpoint Csum (n : nat) (f : nat -> C) : C :=
  match n with
  | O => C0
  | S n' => Cadd (Csum n' f) (f n')
  end.

(** [X[k]], the sum over [j] of [x[j] * e^{-2 pi i j k / N}], with [N] the
    length of [x]. *)
Definition dft (x : list C) (k : nat) : C :=
  let N := length x in
  Csum N (fun j => Cmul (nth j x C0) (expi (- (2 * PI * INR j * INR k / INR N)))).

(** The magnitudes [|X[k]|] for [k = 0 .. N-1] of a real frame. *)
Definition dftMagnitudes (x : list R) : list R :=
  map (fun k => Cmod (dft (map RtoC x) k)) (seq 0 (length x)).

(** Two magnitudes agree within 1e-4 absolute or 1e-3 relative. *)
Definition withinTolerance (a b : R) : Prop :=
  Rabs (a - b) <= 1 / 10000
  \/ Rabs (a - b) <= (1 / 1000) * Rmax (Rabs a) (Rabs b).

(** ** The fast transform *)

(** The fast transform behind [GaussianDFTAudioDetectorFast], which
    [App.tsx] imports from [./lib/AudioDetectorFast.ts]; its source is not
    at hand, so it is written here from the specification. *)
Module FastFFT.

(** Modelled from the spec: the even-indexed samples of a block, for the
    radix-2 decimation of the missing fast transform. *)
Fixpoint evens {A : Type} (l : list A) : list A :=
  match l with
  | [] => []
  | a :: t =>
      a :: match t with
           | [] => []
           | _ :: t' => evens t'
           end
  end.

(** Modelled from the spec: the odd-indexed samples of a block, for the
    radix-2 decimation of the missing fast transform. *)
Definition odds {A : Type} (l : list A) : list A :=
  match l with
  | [] => []
  | _ :: t => evens t
  end.

(** Modelled from the spec: the missing fast transform computes [X[k]] of a
    block of [2 ^ levels] samples by radix-2 decimation: the transforms [E]
    and [O] of the even-indexed and of the odd-indexed samples are combined
    into [X[k] = E[k] + w^k O[k]] and [X[k + N/2] = E[k] - w^k O[k]], with
    [w = e^{-2 pi i / N}]. *)
Fixpoint radix2 (levels : nat) (x : list C) : list C :=
  match levels with
  | O => x
  | S levels' =>
      let half := (2 ^ levels')%nat in
      let E := radix2 levels' (evens x) in
      let O := radix2 levels' (odds x) in
      let twiddle (k : nat) :=
        Cmul (expi (- (2 * PI * INR k / INR (2 * half)))) (nth k O C0) in
      map (fun k => Cadd (nth k E C0) (twiddle k)) (seq 0 half)
      ++ map (fun k => Csub (nth k E C0) (twiddle k)) (seq 0 half)
  end.

Record t : Type := mk { size : nat; levels : nat }.

(** Modelled from the spec: the constructor of the missing fast transform
    fails unless the size is a positive power of two. *)
Definition new (n : nat) : outcome t :=
  if (n <=? 0)%nat || negb (Nat.land n (n - 1) =? 0)%nat then Thrown BadFFTSize
  else Returned {| size := n; levels := Nat.log2 n |}.

(** Modelled from the spec: [forward] of the missing fast transform has the
    interface of [FFT.forward]: it fails on a frame of another length and
    returns [|X[k]|] for each [k]. *)
Definition forward (fft : t) (input : list R) : outcome (list R) :=
  if negb (length input =? size fft)%nat then Thrown InputSizeMismatch
  else Returned (map Cmod (radix2 (levels fft) (map RtoC input))).

End FastFFT.

(** ** Quantities used to state the properties *)

(** The number of offsets [i, i+h, i+2h, ...] that lie below [bound]. *)
Definition offsetsBelow (bound h i : nat) : nat := ((bound - i) + (h - 1)) / h.

(** All vectors of [vs] have [bins] entries. *)
Definition rectangular (bins : nat) (vs : list (list R)) : Prop :=
  Forall (fun v => length v = bins) vs.

(** The arithmetic mean of a list of numbers. *)
Definition mean (l : list R) : R := fold_right Rplus 0 l / INR (length l).

(** The recursion of the SNR estimate with a small positive [eps] standing
    in for a zero [sigmaN[j]] where [sigmaN[j]] is a divisor, and only
    there. *)
Definition dividedOnlyInitialXi (eps sigmaNj y : R) : R :=
  Rmax (y ^ 2 / orElse sigmaNj eps - 1) 0.

Definition dividedOnlyNextXi (eps alpha prevXiJ sigmaNj y : R) : R :=
  alpha * (sqrt (prevXiJ * sigmaNj) ^ 2 / orElse sigmaNj eps)
  + (1 - alpha) * Rmax (y ^ 2 / orElse sigmaNj eps - 1) 0.

(** [xi] obeys that recursion on the spectra [y]. *)
Definition dividedOnlyRecursion (eps : R) (y : list (list R)) (sigmaN : list R)
    (alpha : R) (xi : list (list R)) : Prop :=
  forall j, (j < length (nth 0 y []))%nat ->
    nth j (nth 0 xi []) 0
    = dividedOnlyInitialXi eps (nth j sigmaN 0) (nth j (nth 0 y []) 0)
    /\ forall m, (1 <= m < length y)%nat ->
         nth j (nth m xi []) 0 =
         dividedOnlyNextXi eps alpha (nth j (nth (m - 1) xi []) 0) (nth j sigmaN 0)
                           (nth j (nth m y []) 0).

(** The number of frames classified non-speech. *)
Definition nonSpeechCount (d : Detector.decision) : nat :=
  length (filter negb (Detector.speechFrames d)).

(** * Properties *)

(** ** Arrays *)

Lemma upd_length (l : list R) (i : nat) (v : R) : length (upd l i v) = length l.
Proof.
  revert i; induction l as [|a l IH]; intros [|i]; simpl; auto.
Qed.

Lemma nth_upd_same (l : list R) (i : nat) (v : R) :
  (i < length l)%nat -> nth i (upd l i v) 0 = v.
Proof.
  revert i; induction l as [|a l IH]; intros [|i] H; simpl in *; try lia; auto.
  apply IH; lia.
Qed.

Lemma nth_upd_other (l : list R) (i k : nat) (v : R) :
  i <> k -> nth k (upd l i v) 0 = nth k l 0.
Proof.
  revert i k; induction l as [|a l IH]; intros [|i] [|k] H; simpl; auto; try lia.
Qed.

Lemma upd_upd (l : list R) (i : nat) (v w : R) : upd (upd l i v) i w = upd l i w.
Proof.
  revert i; induction l as [|a l IH]; intros [|i]; simpl; auto.
  now rewrite IH.
Qed.

Lemma upd_out_of_range (l : list R) (i : nat) (v : R) :
  (length l <= i)%nat -> upd l i v = l.
Proof.
  revert i; induction l as [|a l IH]; intros [|i] H; simpl in *; auto; try lia.
  rewrite IH; auto; lia.
Qed.

Lemma mapi_from_length {A B : Type} (f : nat -> A -> B) (i0 : nat) (l : list A) :
  length (mapi_from f i0 l) = length l.
Proof.
  revert i0; induction l as [|a l IH]; intros i0; simpl; auto.
Qed.

Lemma nth_mapi_from {A B : Type} (f : nat -> A -> B) (i0 k : nat) (l : list A) (da : A) (db : B) :
  (k < length l)%nat ->
  nth k (mapi_from f i0 l) db = f (i0 + k)%nat (nth k l da).
Proof.
  revert i0 k; induction l as [|a l IH]; intros i0 [|k] H; simpl in *; try lia.
  - now rewrite Nat.add_0_r.
  - rewrite (IH (S i0) k) by lia. f_equal; lia.
Qed.

Lemma nth_mapi {A B : Type} (f : nat -> A -> B) (k : nat) (l : list A) (da : A) (db : B) :
  (k < length l)%nat -> nth k (mapi f l) db = f k (nth k l da).
Proof.
  intros H. unfold mapi. now rewrite (nth_mapi_from f 0 k l da db H).
Qed.

Lemma nth_map_seq {B : Type} (f : nat -> B) (n k : nat) (d : B) :
  (k < n)%nat -> nth k (map f (seq 0 n)) d = f k.
Proof.
  intros H.
  rewrite (nth_indep _ d (f 0%nat)) by (now rewrite length_map, length_seq).
  rewrite (map_nth f (seq 0 n) 0%nat k), seq_nth; auto.
Qed.

Lemma slice_length {A : Type} (l : list A) (b e : nat) :
  (b <= e)%nat -> (e <= length l)%nat -> length (slice l b e) = (e - b)%nat.
Proof.
  intros Hbe He. unfold slice.
  rewrite length_firstn, length_skipn. lia.
Qed.

Lemma nth_slice {A : Type} (l : list A) (b e k : nat) (d : A) :
  (k < e - b)%nat -> nth k (slice l b e) d = nth (b + k) l d.
Proof.
  intros Hk. unfold slice.
  rewrite nth_firstn.
  assert (Hlt : (k <? e - b)%nat = true) by (apply Nat.ltb_lt; lia).
  rewrite Hlt. apply nth_skipn.
Qed.

(** ** Framer *)

Section Framer.

Variables (F h : nat) (signal : list R).
Hypothesis hop_pos : (0 < h)%nat.

Let L := length signal.
Let offsetsFrom := offsetsBelow (L - F) h.

Lemma offsetsFrom_done (i : nat) : (L - F <= i)%nat -> offsetsFrom i = 0%nat.
Proof.
  intros Hi. unfold offsetsFrom, offsetsBelow.
  replace (L - F - i)%nat with 0%nat by lia.
  apply Nat.div_small. lia.
Qed.

Lemma offsetsFrom_more (i : nat) :
  (i < L - F)%nat -> offsetsFrom i = S (offsetsFrom (i + h)).
Proof.
  intros Hi. unfold offsetsFrom, offsetsBelow.
  destruct (Nat.le_gt_cases h (L - F - i)) as [Hge|Hlt].
  - replace (L - F - i + (h - 1))%nat
      with ((L - F - (i + h) + (h - 1)) + 1 * h)%nat by lia.
    rewrite Nat.div_add by lia. lia.
  - replace (L - F - (i + h))%nat with 0%nat by lia.
    rewrite (Nat.div_small (0 + (h - 1)) h) by lia.
    symmetry. apply (Nat.div_unique _ h 1%nat (L - F - i - 1)%nat); lia.
Qed.

(** With fuel for every offset, the loop ends and has pushed one slice
    per offset below [L - F], in order. *)
Lemma frameLoop_runs (fuel i : nat) (frames : list (list R)) :
  (L - F - i < fuel)%nat ->
  Detector.frameLoop fuel F h signal i frames =
  Some (frames ++ map (fun k => slice signal (i + k * h) (i + k * h + F))
                      (seq 0 (offsetsFrom i))).
Proof.
  revert i frames. induction fuel as [|fuel IH]; intros i frames Hfuel; [lia|].
  simpl. fold L.
  destruct (i <? L - F)%nat eqn:Hlt.
  - apply Nat.ltb_lt in Hlt.
    rewrite IH by lia.
    rewrite (offsetsFrom_more i Hlt). simpl.
    rewrite <- app_assoc. simpl. rewrite Nat.add_0_r.
    do 3 f_equal.
    rewrite <- seq_shift, map_map.
    apply map_ext. intros k. f_equal; simpl; lia.
  - apply Nat.ltb_ge in Hlt.
    rewrite (offsetsFrom_done i Hlt). simpl. now rewrite app_nil_r.
Qed.

(** Without a positive hop and with a sample beyond the first frame, no
    amount of fuel is enough: the source loop does not end. *)
Lemma frameLoop_stuck (fuel i : nat) (frames : list (list R)) :
  (i < L - F)%nat -> Detector.frameLoop fuel F 0 signal i frames = None.
Proof.
  revert frames. induction fuel as [|fuel IH]; intros frames Hi; simpl; auto.
  fold L. apply Nat.ltb_lt in Hi. rewrite Hi.
  rewrite Nat.add_0_r. apply IH. now apply Nat.ltb_lt.
Qed.

End Framer.

(** [frameSignal] on a signal of at least one frame length, with a positive
    hop: one frame per offset [k * hop] strictly below [L - F]. *)
Lemma frameSignal_frames (fuel : nat) (d : Detector.t) (signal : list R) :
  (0 < Detector.hopLength d)%nat ->
  (Detector.frameLength d <= length signal)%nat ->
  (length signal - Detector.frameLength d < fuel)%nat ->
  Detector.frameSignal fuel d signal =
  Some (Returned
          (map (fun k => slice signal (k * Detector.hopLength d)
                               (k * Detector.hopLength d + Detector.frameLength d))
               (seq 0 (offsetsBelow (length signal - Detector.frameLength d)
                                    (Detector.hopLength d) 0)))).
Proof.
  intros Hh HF Hfuel. unfold Detector.frameSignal.
  assert (Hge : (length signal <? Detector.frameLength d)%nat = false)
    by (apply Nat.ltb_ge; lia).
  rewrite Hge, frameLoop_runs by lia.
  reflexivity.
Qed.

(** The frame count of the code against the count [floor((L-F)/h) + 1]:
    one short exactly when the hop divides [L - F]. *)
Lemma offsetsBelow_floor (n h : nat) :
  (0 < h)%nat ->
  offsetsBelow n h 0 = (if (n mod h =? 0)%nat then n / h else n / h + 1)%nat.
Proof.
  intros Hh. unfold offsetsBelow. rewrite Nat.sub_0_r.
  pose proof (Nat.div_mod_eq n h) as Hdm.
  pose proof (Nat.mod_upper_bound n h ltac:(lia)) as Hm.
  destruct (n mod h =? 0)%nat eqn:E.
  - apply Nat.eqb_eq in E. symmetry.
    apply (Nat.div_unique _ h (n / h) (h - 1)); lia.
  - apply Nat.eqb_neq in E. symmetry.
    apply (Nat.div_unique _ h (n / h + 1) (n mod h - 1)); lia.
Qed.

(** A signal of exactly one frame length passes the guard and yields no
    frame at all, whatever the hop. *)
Lemma frameSignal_exact_length (fuel : nat) (d : Detector.t) (signal : list R) :
  length signal = Detector.frameLength d ->
  Detector.frameSignal (S fuel) d signal = Some (Returned []).
Proof.
  intros HL. unfold Detector.frameSignal.
  rewrite HL, Nat.ltb_irrefl. simpl.
  rewrite HL, Nat.sub_diag. reflexivity.
Qed.

(** C2 (the code differs): with frame length 4 and hop 2, the signal
    [1, 2, 3, 4] of exactly one frame length is accepted by [frameSignal],
    which returns an empty list of frames; the formula
    [floor((L-F)/h) + 1] gives one frame. *)
Theorem frameSignal_one_frame_length_is_empty :
  let signal := [1; 2; 3; 4] in
  exists d : Detector.t,
    Detector.new 4 2 16000 = Returned d /\
    Detector.frameSignal 1 d signal = Some (Returned []) /\
    ((length signal - Detector.frameLength d) / Detector.hopLength d + 1 = 1)%nat.
Proof.
  eexists. split; [reflexivity|]. split; reflexivity.
Qed.

(** ** Windower *)

Lemma applyWindow_length (frame : list R) :
  length (Detector.applyWindow frame) = length frame.
Proof.
  unfold Detector.applyWindow, mapi. apply mapi_from_length.
Qed.

Lemma windowCoeff_defined (L i : nat) :
  (2 <= L)%nat ->
  Detector.windowCoeff L i = Some (0.5 * (1 - cos ((2 * PI * INR i) / (INR L - 1)))).
Proof.
  intros HL. unfold Detector.windowCoeff, jsdiv.
  destruct (Req_dec_T (INR L - 1) 0) as [E|E]; [|reflexivity].
  exfalso. apply le_INR in HL. simpl in HL. lra.
Qed.

(** For a frame of two samples or more, every sample is multiplied by its
    Hann coefficient. *)
Lemma applyWindow_hann (frame : list R) (i : nat) :
  (2 <= length frame)%nat -> (i < length frame)%nat ->
  nth i (Detector.applyWindow frame) None =
  Some (nth i frame 0 * (0.5 * (1 - cos ((2 * PI * INR i) / (INR (length frame) - 1))))).
Proof.
  intros HL Hi. unfold Detector.applyWindow.
  rewrite (nth_mapi _ i frame 0 None Hi).
  rewrite nth_map_seq by exact Hi.
  now rewrite windowCoeff_defined.
Qed.

(** C6 (the code differs): for a frame of a single sample the quotient of
    line 44 is [0 / 0], so the coefficient and the windowed sample are NaN,
    whatever the sample. *)
Theorem applyWindow_single_sample_is_NaN (x : R) :
  Detector.applyWindow [x] = [None].
Proof.
  unfold Detector.applyWindow, mapi. simpl.
  unfold Detector.windowCoeff, jsdiv.
  destruct (Req_dec_T (INR 1 - 1) 0) as [E|E]; [reflexivity|].
  exfalso. apply E. simpl. lra.
Qed.

(** ** Loops as sums *)

Lemma Rsum_ext (n : nat) (f g : nat -> R) :
  (forall i, (i < n)%nat -> f i = g i) -> Rsum n f = Rsum n g.
Proof.
  induction n as [|n IH]; intros H; simpl; auto.
  rewrite IH, H; auto.
Qed.

Lemma Rsum_nonneg (n : nat) (f : nat -> R) :
  (forall i, (i < n)%nat -> 0 <= f i) -> 0 <= Rsum n f.
Proof.
  induction n as [|n IH]; intros H; simpl; [lra|].
  assert (0 <= Rsum n f) by (apply IH; auto).
  assert (0 <= f n) by (apply H; lia). lra.
Qed.

(** An accumulator to which [f j] is added for [j = 0 .. n-1]. *)
Lemma fold_left_add_Rsum (f : nat -> R) (n : nat) (a : R) :
  fold_left (fun acc j => acc + f j) (seq 0 n) a = a + Rsum n f.
Proof.
  induction n as [|n IH]; [simpl; lra|].
  rewrite seq_S, fold_left_app, IH. simpl. lra.
Qed.

Lemma fold_left_sub_Rsum (f : nat -> R) (n : nat) (a : R) :
  fold_left (fun acc j => acc - f j) (seq 0 n) a = a - Rsum n f.
Proof.
  induction n as [|n IH]; [simpl; lra|].
  rewrite seq_S, fold_left_app, IH. simpl. lra.
Qed.

(** A loop over [j = a .. a+n-1] that rewrites cell [j] from its old value. *)
Lemma fold_upd_length (g : nat -> R -> R) (n a : nat) (v : list R) :
  length (fold_left (fun v j => upd v j (g j (nth j v 0))) (seq a n) v) = length v.
Proof.
  revert a v; induction n as [|n IH]; intros a v; simpl; auto.
  now rewrite IH, upd_length.
Qed.

Lemma fold_upd_nth (g : nat -> R -> R) (n a k : nat) (v : list R) :
  (a + n <= length v)%nat ->
  nth k (fold_left (fun v j => upd v j (g j (nth j v 0))) (seq a n) v) 0 =
  if ((a <=? k) && (k <? a + n))%nat then g k (nth k v 0) else nth k v 0.
Proof.
  revert a v; induction n as [|n IH]; intros a v Hlen; simpl.
  - destruct (a <=? k)%nat eqn:E1, (k <? a + 0)%nat eqn:E2; simpl; auto.
    apply Nat.leb_le in E1. apply Nat.ltb_lt in E2. lia.
  - rewrite IH by (rewrite upd_length; lia).
    destruct (Nat.eq_dec a k) as [->|Hne].
    + rewrite nth_upd_same by lia.
      assert (E1 : (S k <=? k)%nat = false) by (apply Nat.leb_gt; lia).
      assert (E2 : (k <=? k)%nat = true) by (apply Nat.leb_le; lia).
      assert (E3 : (k <? k + S n)%nat = true) by (apply Nat.ltb_lt; lia).
      now rewrite E1, E2, E3.
    + rewrite nth_upd_other by exact Hne.
      replace (S a + n)%nat with (a + S n)%nat by lia.
      destruct (k <? a + S n)%nat; rewrite ?andb_false_r, ?andb_true_r; auto.
      destruct (S a <=? k)%nat eqn:E1, (a <=? k)%nat eqn:E2; auto.
      * apply Nat.leb_le in E1. apply Nat.leb_gt in E2. lia.
      * apply Nat.leb_gt in E1. apply Nat.leb_le in E2. lia.
Qed.

(** ** Noise estimator *)

Lemma accumulate_length (variance frame : list R) :
  length (Detector.accumulate variance frame) = length variance.
Proof.
  unfold Detector.accumulate.
  apply (fold_upd_length (fun j old => old + nth j frame 0 ^ 2)).
Qed.

Lemma accumulate_nth (variance frame : list R) (j : nat) :
  (j < length variance)%nat ->
  nth j (Detector.accumulate variance frame) 0 = nth j variance 0 + nth j frame 0 ^ 2.
Proof.
  intros Hj. unfold Detector.accumulate.
  rewrite (fold_upd_nth (fun j old => old + nth j frame 0 ^ 2)) by (simpl; lia).
  assert (E : (j <? 0 + length variance)%nat = true) by (apply Nat.ltb_lt; lia).
  now rewrite E.
Qed.

(** The state of [variance] after the first [k] frames were added. *)
Lemma accumulated_frames (features : list (list R)) (k : nat) (variance0 : list R) :
  let variance :=
    fold_left (fun v i => Detector.accumulate v (nth i features []))
              (seq 0 k) variance0 in
  length variance = length variance0 /\
  forall j, (j < length variance0)%nat ->
    nth j variance 0 =
    nth j variance0 0 + Rsum k (fun i => nth j (nth i features []) 0 ^ 2).
Proof.
  induction k as [|k [IHlen IHnth]].
  - simpl. split; auto. intros; lra.
  - rewrite seq_S, fold_left_app. cbn [fold_left Nat.add].
    split.
    + now rewrite accumulate_length.
    + intros j Hj. rewrite accumulate_nth by lia.
      rewrite IHnth by exact Hj. cbn [Rsum]. lra.
Qed.

Lemma nth_repeat_zero (n j : nat) : nth j (repeat 0 n) 0 = 0.
Proof.
  revert j; induction n as [|n IH]; intros [|j]; simpl; auto.
Qed.

(** The sum over the first [k] frames, as a sum over the list [firstn k]. *)
Lemma Rsum_firstn (features : list (list R)) (g : list R -> R) (k : nat) :
  (k <= length features)%nat ->
  Rsum k (fun i => g (nth i features [])) =
  fold_right Rplus 0 (map g (firstn k features)).
Proof.
  revert features; induction k as [|k IH]; intros features Hk.
  - reflexivity.
  - destruct features as [|f features]; simpl in Hk; [lia|].
    rewrite firstn_cons. simpl map. simpl fold_right.
    rewrite <- IH by lia.
    clear IH Hk. induction k as [|k IHk]; simpl.
    + lra.
    + simpl in IHk. rewrite IHk. lra.
Qed.

Lemma min_zero_iff (a b : nat) :
  (Nat.min a b =? 0)%nat = true <-> Nat.min b a = 0%nat.
Proof.
  rewrite Nat.eqb_eq. lia.
Qed.

(** C7: [estimateNoiseVariance] throws exactly when
    [min(nNoiseFrames, spectra.length)] is zero; otherwise it returns one
    value per bin, the arithmetic mean of the squared magnitudes of that bin
    over the first [min(nNoiseFrames, spectra.length)] spectra. *)
Theorem estimateNoiseVariance_mean_of_squares
    (bins : nat) (features : list (list R)) (nNoiseFrames : nat) :
  rectangular bins features ->
  let k := Nat.min nNoiseFrames (length features) in
  (k = 0%nat <->
   exists e, Detector.estimateNoiseVariance features nNoiseFrames = Thrown e)
  /\ (k <> 0%nat ->
      exists sigmaN,
        Detector.estimateNoiseVariance features nNoiseFrames = Returned sigmaN
        /\ length sigmaN = bins
        /\ forall j, (j < bins)%nat ->
             nth j sigmaN 0 =
             mean (map (fun spectrum => nth j spectrum 0 ^ 2) (firstn k features))).
Proof.
  intros Hrect k. unfold Detector.estimateNoiseVariance.
  destruct (Nat.min (length features) nNoiseFrames =? 0)%nat eqn:E.
  - apply min_zero_iff in E. fold k in E. split.
    + split; [intros _; now exists NotEnoughFrames | intros _; exact E].
    + intros Hk. contradiction.
  - assert (Hk : k <> 0%nat).
    { intros Hk. apply min_zero_iff in Hk. congruence. }
    split.
    + split; [contradiction | intros [e He]; discriminate].
    + intros _. eexists. split; [reflexivity|].
      replace (Nat.min (length features) nNoiseFrames) with k by (unfold k; lia).
      assert (Hfirst : length (nth 0 features []) = bins).
      { destruct features as [|f features]; [simpl in Hk; unfold k in Hk; simpl in Hk; lia|].
        inversion Hrect; subst. reflexivity. }
      destruct (accumulated_frames features k (repeat 0 (length (nth 0 features []))))
        as [Hlen Hnth].
      rewrite repeat_length in Hlen, Hnth.
      split.
      * rewrite length_map, Hlen. exact Hfirst.
      * intros j Hj.
        rewrite (nth_indep _ 0 (0 / INR k))
          by (rewrite length_map, Hlen, Hfirst; exact Hj).
        rewrite (map_nth (fun v => v / INR k)).
        rewrite Hnth by (rewrite Hfirst; exact Hj).
        rewrite nth_repeat_zero, Rplus_0_l.
        unfold mean. rewrite length_map, length_firstn.
        replace (Nat.min k (length features)) with k by (unfold k; lia).
        f_equal.
        apply (Rsum_firstn features (fun spectrum => nth j spectrum 0 ^ 2)).
        unfold k; lia.
Qed.

(** An instance of C7: two spectra of two bins, ten noise frames asked for. *)
Lemma estimateNoiseVariance_mean_of_squares_witness :
  exists sigmaN,
    Detector.estimateNoiseVariance [[1; 2]; [3; 4]] 10 = Returned sigmaN
    /\ length sigmaN = 2%nat
    /\ forall j, (j < 2)%nat ->
         nth j sigmaN 0 =
         mean (map (fun spectrum => nth j spectrum 0 ^ 2) [[1; 2]; [3; 4]]).
Proof.
  assert (Hrect : rectangular 2 [[1; 2]; [3; 4]]).
  { repeat constructor. }
  destruct (estimateNoiseVariance_mean_of_squares 2 [[1; 2]; [3; 4]] 10 Hrect)
    as [_ H].
  apply H. simpl. lia.
Defined.

(** ** Epsilon substitution *)

Lemma EPSILON_pos : 0 < EPSILON.
Proof.
  unfold EPSILON. apply Rinv_0_lt_compat. apply pow_lt. lra.
Qed.

Lemma EPSILON_lt_1 : EPSILON < 1.
Proof.
  unfold EPSILON. rewrite <- Rinv_1.
  apply Rinv_lt_contravar.
  - rewrite Rmult_1_l. apply pow_lt. lra.
  - apply (Rlt_pow_R1 2 52); [lra | lia].
Qed.

Lemma orElse_zero (d : R) : orElse 0 d = d.
Proof.
  unfold orElse. destruct (Req_dec_T 0 0); [reflexivity | contradiction].
Qed.

Lemma orElse_nonzero (x d : R) : x <> 0 -> orElse x d = x.
Proof.
  intros Hx. unfold orElse. destruct (Req_dec_T x 0); [contradiction | reflexivity].
Qed.

Lemma orElse_EPSILON_nonzero (x : R) : orElse x EPSILON <> 0.
Proof.
  unfold orElse. destruct (Req_dec_T x 0); auto.
  pose proof EPSILON_pos. lra.
Qed.

Lemma orElse_EPSILON_pos (x : R) : 0 <= x -> 0 < orElse x EPSILON.
Proof.
  intros Hx. unfold orElse. destruct (Req_dec_T x 0).
  - apply EPSILON_pos.
  - lra.
Qed.

(** ** SNR estimator *)

Section SNR.

Variables (features : list (list R)) (sigmaN : list R) (alpha : R).

(** The list [xi] after the loop has run for [m = 1 .. n]. *)
Let xiAfter (first : list R) (n : nat) : list (list R) :=
  fold_left (Detector.snrStep features sigmaN alpha) (seq 1 n)
            [Detector.initialXi first sigmaN].

Lemma xiAfter_S (first : list R) (n : nat) :
  xiAfter first (S n) =
  Detector.snrStep features sigmaN alpha (xiAfter first n) (S n).
Proof.
  unfold xiAfter. now rewrite seq_S, fold_left_app.
Qed.

Lemma xiAfter_length (first : list R) (n : nat) :
  length (xiAfter first n) = S n.
Proof.
  induction n as [|n IH]; [reflexivity|].
  rewrite xiAfter_S. unfold Detector.snrStep.
  rewrite length_app, IH. simpl. lia.
Qed.

(** Entries already pushed are never changed by later iterations. *)
Lemma xiAfter_stable (first : list R) (n m : nat) :
  (m <= n)%nat -> nth m (xiAfter first n) [] = nth m (xiAfter first m) [].
Proof.
  induction n as [|n IH]; intros Hm.
  - now replace m with 0%nat by lia.
  - destruct (Nat.eq_dec m (S n)) as [->|Hne]; [reflexivity|].
    rewrite xiAfter_S. unfold Detector.snrStep.
    rewrite app_nth1 by (rewrite xiAfter_length; lia).
    apply IH. lia.
Qed.

(** The vector pushed by iteration [S n] is computed from the vector
    pushed just before it. *)
Lemma xiAfter_last (first : list R) (n : nat) :
  nth (S n) (xiAfter first (S n)) [] =
  map (fun j => Detector.nextXiBin alpha (nth j (nth n (xiAfter first n) []) 0)
                                   (nth j sigmaN 0) (nth j (nth (S n) features []) 0))
      (seq 0 (length (nth (S n) features []))).
Proof.
  rewrite xiAfter_S. unfold Detector.snrStep.
  rewrite app_nth2 by (rewrite xiAfter_length; lia).
  rewrite xiAfter_length, Nat.sub_diag. simpl.
  now rewrite Nat.sub_0_r.
Qed.

Lemma estimatePrioriSNR_unfold (first : list R) (rest : list (list R)) :
  features = first :: rest ->
  Detector.estimatePrioriSNR features sigmaN alpha =
  Returned (xiAfter first (length rest)).
Proof.
  intros ->. unfold Detector.estimatePrioriSNR, xiAfter. simpl length.
  now replace (S (length rest) - 1)%nat with (length rest) by lia.
Qed.

Lemma initialXi_nth (first : list R) (j : nat) :
  (j < length first)%nat ->
  nth j (Detector.initialXi first sigmaN) 0 =
  Rmax (nth j first 0 ^ 2 / orElse (nth j sigmaN 0) EPSILON - 1) 0.
Proof.
  intros Hj. unfold Detector.initialXi.
  set (g := fun j y => y ^ 2 / orElse (nth j sigmaN 0) EPSILON).
  rewrite (nth_indep _ 0 (Rmax (0 - 1) 0))
    by (unfold mapi; rewrite length_map, mapi_from_length; exact Hj).
  rewrite (map_nth (fun g => Rmax (g - 1) 0)).
  now rewrite (nth_mapi g j first 0 0 Hj).
Qed.

(** What [estimatePrioriSNR] returns: one vector per spectrum, the first
    from [initialXi], each later one from its predecessor by [nextXiBin]. *)
Lemma estimatePrioriSNR_recursion (first : list R) (rest : list (list R)) :
  features = first :: rest ->
  exists xi,
    Detector.estimatePrioriSNR features sigmaN alpha = Returned xi
    /\ length xi = length features
    /\ nth 0 xi [] = Detector.initialXi first sigmaN
    /\ forall m, (1 <= m < length features)%nat ->
         nth m xi [] =
         map (fun j => Detector.nextXiBin alpha (nth j (nth (m - 1) xi []) 0)
                                          (nth j sigmaN 0) (nth j (nth m features []) 0))
             (seq 0 (length (nth m features []))).
Proof.
  intros Hf. exists (xiAfter first (length rest)).
  split; [now apply estimatePrioriSNR_unfold|].
  assert (Hlen : length features = S (length rest)) by (now rewrite Hf).
  split; [now rewrite xiAfter_length|].
  split; [now rewrite xiAfter_stable by lia|].
  intros m Hm. destruct m as [|m]; [lia|].
  rewrite xiAfter_stable by lia.
  rewrite xiAfter_last. simpl. rewrite Nat.sub_0_r.
  apply map_ext. intros j.
  now rewrite (xiAfter_stable first (length rest) m) by lia.
Qed.

End SNR.

Lemma rectangular_nth (bins : nat) (vs : list (list R)) (m : nat) :
  rectangular bins vs -> (m < length vs)%nat -> length (nth m vs []) = bins.
Proof.
  intros Hrect Hm. unfold rectangular in Hrect.
  rewrite Forall_forall in Hrect. apply Hrect. now apply nth_In.
Qed.

Lemma Rmax_zero_nonneg (x : R) : 0 <= Rmax x 0.
Proof. apply Rmax_r. Qed.

(** The recursion of [estimatePrioriSNR], bin by bin: the first vector is
    the rectified a-posteriori SNR minus one, each later value blends the
    previous estimate with the rectified current one; epsilon stands in for
    a zero [sigmaN[j]] in every place where [sigmaN[j]] is read. *)
Lemma estimatePrioriSNR_bins (bins : nat) (y : list (list R)) (sigmaN : list R) (alpha : R) :
  y <> [] -> rectangular bins y ->
  exists xi,
    Detector.estimatePrioriSNR y sigmaN alpha = Returned xi
    /\ length xi = length y
    /\ forall j, (j < bins)%nat ->
         let s := orElse (nth j sigmaN 0) EPSILON in
         nth j (nth 0 xi []) 0 = Rmax (nth j (nth 0 y []) 0 ^ 2 / s - 1) 0
         /\ forall m, (1 <= m < length y)%nat ->
              nth j (nth m xi []) 0 =
              alpha * (sqrt (nth j (nth (m - 1) xi []) 0 * s) ^ 2 / s)
              + (1 - alpha) * Rmax (nth j (nth m y []) 0 ^ 2 / s - 1) 0.
Proof.
  intros Hne Hrect.
  destruct y as [|first rest]; [contradiction|].
  destruct (estimatePrioriSNR_recursion (first :: rest) sigmaN alpha first rest eq_refl)
    as (xi & Hret & Hlen & H0 & Hm).
  exists xi. split; [exact Hret|]. split; [exact Hlen|].
  intros j Hj s. split.
  - rewrite H0. apply initialXi_nth.
    now rewrite (rectangular_nth bins (first :: rest) 0 Hrect) by (simpl; lia).
  - intros m Hmr. rewrite (Hm m Hmr).
    rewrite (rectangular_nth bins (first :: rest) m Hrect) by lia.
    now rewrite nth_map_seq by exact Hj.
Qed.

(** C4, as amended: the values returned by [estimatePrioriSNR] follow the
    decision-directed recursion in which [s_j], standing for [sigmaN[j]] or
    for epsilon when [sigmaN[j]] is zero, is used both as the divisor and
    inside the square root. *)
Theorem estimatePrioriSNR_guarded_recursion
    (bins : nat) (y : list (list R)) (sigmaN : list R) (alpha : R) :
  y <> [] -> rectangular bins y -> 0 < alpha < 1 ->
  exists xi,
    Detector.estimatePrioriSNR y sigmaN alpha = Returned xi
    /\ length xi = length y
    /\ forall j, (j < bins)%nat ->
         let s := orElse (nth j sigmaN 0) EPSILON in
         nth j (nth 0 xi []) 0 = Rmax (nth j (nth 0 y []) 0 ^ 2 / s - 1) 0
         /\ forall m, (1 <= m < length y)%nat ->
              nth j (nth m xi []) 0 =
              alpha * (sqrt (nth j (nth (m - 1) xi []) 0 * s) ^ 2 / s)
              + (1 - alpha) * Rmax (nth j (nth m y []) 0 ^ 2 / s - 1) 0.
Proof.
  intros Hne Hrect _. now apply estimatePrioriSNR_bins.
Qed.

(** An instance of the amended C4: two spectra of one bin, a zero noise
    power, alpha one half. *)
Lemma estimatePrioriSNR_guarded_recursion_witness :
  exists xi,
    Detector.estimatePrioriSNR [[1]; [0]] [0] (1 / 2) = Returned xi
    /\ length xi = 2%nat
    /\ forall j, (j < 1)%nat ->
         let s := orElse (nth j [0] 0) EPSILON in
         nth j (nth 0 xi []) 0 = Rmax (nth j (nth 0 [[1]; [0]] []) 0 ^ 2 / s - 1) 0
         /\ forall m, (1 <= m < 2)%nat ->
              nth j (nth m xi []) 0 =
              (1 / 2) * (sqrt (nth j (nth (m - 1) xi []) 0 * s) ^ 2 / s)
              + (1 - 1 / 2) * Rmax (nth j (nth m [[1]; [0]] []) 0 ^ 2 / s - 1) 0.
Proof.
  apply (estimatePrioriSNR_guarded_recursion 1 [[1]; [0]] [0] (1 / 2)).
  - discriminate.
  - repeat constructor.
  - lra.
Defined.

(** Where the two recursions part: on a bin of zero noise power the code
    keeps [alpha] times the previous estimate, which the recursion with
    epsilon in the divisors only drops. *)
Lemma nextXiBin_zero_noise (alpha prevXiJ : R) :
  0 <= prevXiJ -> Detector.nextXiBin alpha prevXiJ 0 0 = alpha * prevXiJ.
Proof.
  intros Hp. unfold Detector.nextXiBin.
  rewrite orElse_zero.
  pose proof EPSILON_pos as He.
  rewrite pow2_sqrt by (apply Rmult_le_pos; lra).
  replace (0 ^ 2 / EPSILON - 1) with (-1) by (field; lra).
  rewrite Rmax_right by lra.
  field. lra.
Qed.

Lemma dividedOnlyNextXi_zero_noise (eps alpha prevXiJ : R) :
  dividedOnlyNextXi eps alpha prevXiJ 0 0 = 0.
Proof.
  unfold dividedOnlyNextXi.
  rewrite orElse_zero, Rmult_0_r, sqrt_0.
  replace (0 ^ 2 / eps - 1) with (-1) by (unfold Rdiv; ring).
  rewrite Rmax_right by lra.
  unfold Rdiv. ring.
Qed.

(** C4 (as worded, refuted): for the spectra [[1], [0]], the noise power
    [0] and alpha one half, the second estimate returned by the code is
    half the first one, which is positive; the recursion that substitutes
    epsilon in the divisors only gives 0, whatever the epsilon. *)
Lemma estimatePrioriSNR_not_divided_only :
  exists xi,
    Detector.estimatePrioriSNR [[1]; [0]] [0] (1 / 2) = Returned xi
    /\ forall eps, ~ dividedOnlyRecursion eps [[1]; [0]] [0] (1 / 2) xi.
Proof.
  destruct (estimatePrioriSNR_bins 1 [[1]; [0]] [0] (1 / 2))
    as (xi & Hret & _ & Hxi); [discriminate | repeat constructor |].
  exists xi. split; [exact Hret|].
  intros eps Hclaim.
  destruct (Hxi 0%nat ltac:(lia)) as [H0 H1].
  destruct (Hclaim 0%nat ltac:(simpl; lia)) as [_ C1].
  specialize (H1 1%nat ltac:(simpl; lia)).
  specialize (C1 1%nat ltac:(simpl; lia)).
  cbn [nth Nat.sub] in H0, H1, C1.
  rewrite dividedOnlyNextXi_zero_noise in C1.
  pose proof (nextXiBin_zero_noise (1 / 2) (nth 0 (nth 0 xi []) 0)) as Hcode.
  unfold Detector.nextXiBin in Hcode.
  pose proof EPSILON_pos as He. pose proof EPSILON_lt_1 as He1.
  assert (Hpos : 0 < nth 0 (nth 0 xi []) 0).
  { rewrite H0, orElse_zero.
    apply Rlt_le_trans with (1 ^ 2 / EPSILON - 1); [|apply Rmax_l].
    assert (1 < / EPSILON).
    { rewrite <- Rinv_1 at 1. apply Rinv_lt_contravar; lra. }
    unfold Rdiv. lra. }
  rewrite Hcode in H1 by lra.
  lra.
Qed.

(** ** Non-negativity *)

Lemma forward_nonneg (fft : FFT.t) (input magnitude : list R) :
  FFT.forward fft input = Returned magnitude -> Forall (Rle 0) magnitude.
Proof.
  unfold FFT.forward.
  destruct (negb (length input =? FFT.size fft)%nat); [discriminate|].
  destruct (FFT.loops _ _ _) as [real imag].
  intros H. injection H as <-.
  apply Forall_forall. intros x Hx.
  apply in_map_iff in Hx. destruct Hx as (i & <- & _).
  apply sqrt_pos.
Qed.

Lemma estimateNoiseVariance_nonneg
    (features : list (list R)) (nNoiseFrames : nat) (sigmaN : list R) :
  Detector.estimateNoiseVariance features nNoiseFrames = Returned sigmaN ->
  Forall (Rle 0) sigmaN.
Proof.
  unfold Detector.estimateNoiseVariance.
  set (k := Nat.min (length features) nNoiseFrames).
  destruct (k =? 0)%nat eqn:E; [discriminate|].
  apply Nat.eqb_neq in E.
  intros H. injection H as <-.
  destruct (accumulated_frames features k (repeat 0 (length (nth 0 features []))))
    as [Hlen Hnth].
  apply Forall_nth. intros j d Hj.
  rewrite length_map in Hj.
  rewrite (nth_indep _ d (0 / INR k)) by (now rewrite length_map).
  rewrite (map_nth (fun v => v / INR k)).
  rewrite Hnth by (now rewrite <- Hlen).
  rewrite nth_repeat_zero, Rplus_0_l.
  apply Rmult_le_pos.
  - apply Rsum_nonneg. intros i _. apply pow2_ge_0.
  - apply Rlt_le, Rinv_0_lt_compat, lt_0_INR. lia.
Qed.

Lemma initialXi_nonneg (first sigmaN : list R) :
  Forall (Rle 0) (Detector.initialXi first sigmaN).
Proof.
  unfold Detector.initialXi. apply Forall_forall. intros x Hx.
  apply in_map_iff in Hx. destruct Hx as (g & <- & _).
  apply Rmax_zero_nonneg.
Qed.

Lemma nextXiBin_nonneg (alpha prevXiJ sigmaNj y : R) :
  0 < alpha < 1 -> 0 <= sigmaNj ->
  0 <= Detector.nextXiBin alpha prevXiJ sigmaNj y.
Proof.
  intros Ha Hs. unfold Detector.nextXiBin.
  pose proof (orElse_EPSILON_pos sigmaNj Hs) as Hpos.
  pose proof (pow2_ge_0 (sqrt (prevXiJ * orElse sigmaNj EPSILON))) as Hsq.
  pose proof (Rmax_zero_nonneg (y ^ 2 / orElse sigmaNj EPSILON - 1)) as Hmax.
  apply Rplus_le_le_0_compat.
  - apply Rmult_le_pos; [lra|].
    apply Rmult_le_pos; [exact Hsq|].
    now apply Rlt_le, Rinv_0_lt_compat.
  - apply Rmult_le_pos; lra.
Qed.

Lemma nth_nonneg (l : list R) (j : nat) : Forall (Rle 0) l -> 0 <= nth j l 0.
Proof.
  intros H. destruct (Nat.lt_ge_cases j (length l)) as [Hj|Hj].
  - rewrite Forall_nth in H. now apply H.
  - rewrite nth_overflow by exact Hj. lra.
Qed.

Lemma estimatePrioriSNR_nonneg
    (features : list (list R)) (sigmaN : list R) (alpha : R) (xi : list (list R)) :
  0 < alpha < 1 -> Forall (Rle 0) sigmaN ->
  Detector.estimatePrioriSNR features sigmaN alpha = Returned xi ->
  Forall (Forall (Rle 0)) xi.
Proof.
  intros Ha Hs Hret.
  destruct features as [|first rest]; [discriminate|].
  destruct (estimatePrioriSNR_recursion (first :: rest) sigmaN alpha first rest eq_refl)
    as (xi' & Hret' & Hlen & H0 & Hm).
  rewrite Hret in Hret'. injection Hret' as <-.
  apply Forall_nth. intros m d Hlt.
  rewrite (nth_indep _ d []) by exact Hlt.
  destruct m as [|m].
  - rewrite H0. apply initialXi_nonneg.
  - rewrite Hm by lia.
    apply Forall_forall. intros x Hx.
    apply in_map_iff in Hx. destruct Hx as (j & <- & _).
    apply nextXiBin_nonneg; [exact Ha | now apply nth_nonneg].
Qed.

(** C8: every magnitude returned by the transform is at least zero; for
    spectra of one common length, every bin of the noise power vector is at
    least zero, and with alpha in (0,1) so is every a-priori SNR value
    computed from those spectra and that noise power vector. *)
Theorem pipeline_values_nonneg
    (bins : nat) (features : list (list R)) (nNoiseFrames : nat) (alpha : R) :
  rectangular bins features -> 0 < alpha < 1 ->
  (forall fft input magnitude,
      FFT.forward fft input = Returned magnitude -> Forall (Rle 0) magnitude)
  /\ (forall sigmaN,
        Detector.estimateNoiseVariance features nNoiseFrames = Returned sigmaN ->
        Forall (Rle 0) sigmaN
        /\ forall xi,
             Detector.estimatePrioriSNR features sigmaN alpha = Returned xi ->
             Forall (Forall (Rle 0)) xi
             /\ forall j, (j < bins)%nat -> 0 <= nth j (nth 0 xi []) 0).
Proof.
  intros Hrect Ha. split; [apply forward_nonneg|].
  intros sigmaN Hs.
  pose proof (estimateNoiseVariance_nonneg _ _ _ Hs) as Hnn.
  split; [exact Hnn|].
  intros xi Hxi.
  pose proof (estimatePrioriSNR_nonneg _ _ _ _ Ha Hnn Hxi) as Hall.
  split; [exact Hall|].
  intros j _. apply nth_nonneg.
  destruct xi as [|x0 xi]; [constructor | now inversion Hall].
Qed.

(** An instance of C8: two spectra of two bins, the default ten noise
    frames and the default alpha. *)
Lemma pipeline_values_nonneg_witness :
  exists sigmaN xi,
    Detector.estimateNoiseVariance [[1; 2]; [3; 4]] 10 = Returned sigmaN
    /\ Detector.estimatePrioriSNR [[1; 2]; [3; 4]] sigmaN Detector.defaultAlpha
       = Returned xi
    /\ Forall (Rle 0) sigmaN
    /\ Forall (Forall (Rle 0)) xi.
Proof.
  assert (Hrect : rectangular 2 [[1; 2]; [3; 4]]) by (repeat constructor).
  assert (Ha : 0 < Detector.defaultAlpha < 1) by (unfold Detector.defaultAlpha; lra).
  destruct (pipeline_values_nonneg 2 [[1; 2]; [3; 4]] 10 Detector.defaultAlpha Hrect Ha)
    as [_ H].
  eexists. eexists.
  split; [reflexivity|]. split; [reflexivity|].
  destruct (H _ eq_refl) as [Hs Hx].
  split; [exact Hs|].
  now destruct (Hx _ eq_refl).
Defined.

(** ** Speech decision *)

Section Decision.

Variables (features xi : list (list R)) (sigmaN : list R) (threshold : R).

(** The average log-likelihood of frame [m], as the loop body computes it. *)
Let avgOf (m : nat) : R :=
  Detector.avgLogL (nth m features []) (nth m xi []) sigmaN.

Lemma decide_loop (n : nat) (d0 : Detector.decision) :
  let d := fold_left (Detector.decideStep features xi sigmaN threshold) (seq 0 n) d0 in
  Detector.speechFrames d =
    Detector.speechFrames d0
    ++ map (fun m => Detector.aboveLogThreshold (avgOf m) threshold) (seq 0 n)
  /\ Detector.logLikelihood d = Detector.logLikelihood d0 ++ map avgOf (seq 0 n).
Proof.
  induction n as [|n [IHs IHl]].
  - simpl. now rewrite !app_nil_r.
  - rewrite seq_S, fold_left_app. cbn [fold_left Nat.add].
    unfold Detector.decideStep at 1 3. cbn [Detector.speechFrames Detector.logLikelihood].
    rewrite IHs, IHl, !map_app, !app_assoc. now split.
Qed.

Lemma decide_speechFrames :
  Detector.speechFrames (Detector.decide features xi sigmaN threshold) =
  map (fun m => Detector.aboveLogThreshold (avgOf m) threshold)
      (seq 0 (length features)).
Proof.
  unfold Detector.decide.
  now destruct (decide_loop (length features)
                  {| Detector.speechFrames := []; Detector.logLikelihood := [] |})
    as [-> _].
Qed.

Lemma decide_logLikelihood :
  Detector.logLikelihood (Detector.decide features xi sigmaN threshold) =
  map avgOf (seq 0 (length features)).
Proof.
  unfold Detector.decide.
  now destruct (decide_loop (length features)
                  {| Detector.speechFrames := []; Detector.logLikelihood := [] |})
    as [_ ->].
Qed.

End Decision.

Lemma sumLogL_Rsum (frame xiM sigmaN : list R) :
  Detector.sumLogL frame xiM sigmaN =
  Rsum (length frame)
       (fun j => ln (Rmax (Detector.binLikelihood (nth j xiM 0) (nth j sigmaN 0)
                                                  (nth j frame 0))
                          EPSILON)).
Proof.
  unfold Detector.sumLogL.
  rewrite (fold_left_add_Rsum
             (fun j => ln (Rmax (Detector.binLikelihood (nth j xiM 0) (nth j sigmaN 0)
                                                        (nth j frame 0))
                                EPSILON))).
  lra.
Qed.

Lemma gtb_true_iff (a b : R) : Detector.gtb a b = true <-> a > b.
Proof.
  unfold Detector.gtb. destruct (Rlt_dec b a); split; intros H; auto; try discriminate.
Qed.

Lemma aboveLogThreshold_true_iff (a threshold : R) :
  0 < threshold ->
  Detector.aboveLogThreshold a threshold = true <-> a > ln threshold.
Proof.
  intros Ht. unfold Detector.aboveLogThreshold.
  destruct (Rlt_dec 0 threshold); [apply gtb_true_iff | contradiction].
Qed.

(** C3: for every frame [m], the decision step computes per bin the
    likelihood ratio [L_j] from [sigmaS], [gamma] and [xiJ] (epsilon
    standing in for a zero noise power in the two divisors), sums
    [log(max(L_j, epsilon))] over the bins, divides by the bin count, and
    marks the frame as speech exactly when that average is strictly above
    [log(threshold)]; the threshold defaults to 0.5. *)
Theorem decide_frame_rule
    (features xi : list (list R)) (sigmaN : list R) (threshold : R) (m : nat) :
  0 < threshold ->
  (m < length features)%nat ->
  (0 < length (nth m features []))%nat ->
  length (nth m xi []) = length (nth m features []) ->
  length sigmaN = length (nth m features []) ->
  let y := nth m features [] in
  let bins := length y in
  let L (j : nat) :=
    let sigmaS := nth j (nth m xi []) 0 * nth j sigmaN 0 in
    let gamma := nth j y 0 ^ 2 / (if Req_dec_T (nth j sigmaN 0) 0 then EPSILON
                                  else nth j sigmaN 0) in
    let xiJ := sigmaS / (if Req_dec_T (nth j sigmaN 0) 0 then EPSILON
                         else nth j sigmaN 0) in
    (1 / (1 + xiJ)) * exp (gamma * xiJ / (1 + xiJ)) in
  let avg := Rsum bins (fun j => ln (Rmax (L j) EPSILON)) / INR bins in
  let d := Detector.decide features xi sigmaN threshold in
  length (Detector.logLikelihood d) = length features
  /\ length (Detector.speechFrames d) = length features
  /\ nth m (Detector.logLikelihood d) 0 = avg
  /\ (nth m (Detector.speechFrames d) false = true <-> avg > ln threshold)
  /\ Detector.detectFromFeatures features None
     = Detector.detectFromFeatures features (Some 0.5).
Proof.
  intros Ht Hm _ _ _ y bins L avg d. subst d.
  rewrite decide_logLikelihood, decide_speechFrames.
  rewrite !length_map, !length_seq.
  rewrite !nth_map_seq by exact Hm.
  assert (Havg : Detector.avgLogL (nth m features []) (nth m xi []) sigmaN = avg).
  { unfold Detector.avgLogL. now rewrite sumLogL_Rsum. }
  rewrite Havg.
  split; [reflexivity|]. split; [reflexivity|]. split; [reflexivity|].
  split; [now apply aboveLogThreshold_true_iff | reflexivity].
Qed.

(** An instance of C3: one frame of one bin, unit noise power, zero SNR
    estimate, the default threshold. *)
Lemma decide_frame_rule_witness :
  let d := Detector.decide [[1]] [[0]] [1] 0.5 in
  nth 0 (Detector.logLikelihood d) 0
  = Rsum 1 (fun j =>
      ln (Rmax (let sigmaS := nth j [0] 0 * nth j [1] 0 in
                let gamma := nth j [1] 0 ^ 2 / (if Req_dec_T (nth j [1] 0) 0 then EPSILON
                                                else nth j [1] 0) in
                let xiJ := sigmaS / (if Req_dec_T (nth j [1] 0) 0 then EPSILON
                                     else nth j [1] 0) in
                (1 / (1 + xiJ)) * exp (gamma * xiJ / (1 + xiJ)))
               EPSILON)) / INR 1.
Proof.
  assert (Ht : 0 < 0.5) by lra.
  assert (Hm : (0 < length [[1]])%nat) by (simpl; lia).
  assert (Hb : (0 < length (nth 0 [[1]] []))%nat) by (simpl; lia).
  exact (proj1 (proj2 (proj2
           (decide_frame_rule [[1]] [[0]] [1] 0.5 0 Ht Hm Hb eq_refl eq_refl)))).
Defined.

(** Raising the threshold can only turn speech into non-speech. *)
Lemma aboveLogThreshold_antitone (a t1 t2 : R) :
  0 < t1 <= t2 ->
  Detector.aboveLogThreshold a t2 = true -> Detector.aboveLogThreshold a t1 = true.
Proof.
  intros [H1 H12] H.
  apply aboveLogThreshold_true_iff in H; [|lra].
  apply aboveLogThreshold_true_iff; [lra|].
  destruct H12 as [Hlt|Heq].
  - pose proof (ln_increasing t1 t2 H1 Hlt). lra.
  - now rewrite Heq.
Qed.

Lemma filter_negb_pointwise {A : Type} (f g : A -> bool) (l : list A) :
  (forall x, g x = true -> f x = true) ->
  (length (filter negb (map f l)) <= length (filter negb (map g l)))%nat.
Proof.
  intros Hfg. induction l as [|x l IH]; simpl; [lia|].
  destruct (g x) eqn:Eg.
  - rewrite (Hfg x Eg). simpl. exact IH.
  - destruct (f x); simpl; lia.
Qed.

(** C9: for fixed spectra, SNR estimates and noise power, and thresholds
    [0 < t1 <= t2], the log-likelihoods are the same, every frame that is
    non-speech at [t1] is non-speech at [t2], and the number of non-speech
    frames at [t2] is at least the number at [t1]. *)
Theorem decide_threshold_monotone
    (features xi : list (list R)) (sigmaN : list R) (t1 t2 : R) :
  0 < t1 <= t2 ->
  let d1 := Detector.decide features xi sigmaN t1 in
  let d2 := Detector.decide features xi sigmaN t2 in
  Detector.logLikelihood d1 = Detector.logLikelihood d2
  /\ (forall m, (m < length features)%nat ->
        nth m (Detector.speechFrames d1) false = false ->
        nth m (Detector.speechFrames d2) false = false)
  /\ (nonSpeechCount d1 <= nonSpeechCount d2)%nat.
Proof.
  intros Ht d1 d2. subst d1 d2. unfold nonSpeechCount.
  rewrite !decide_logLikelihood, !decide_speechFrames.
  split; [reflexivity|]. split.
  - intros m Hm. rewrite !nth_map_seq by exact Hm.
    intros Hns.
    destruct (Detector.aboveLogThreshold _ t2) eqn:E2; [|reflexivity].
    apply (aboveLogThreshold_antitone _ t1 t2 Ht) in E2. congruence.
  - apply filter_negb_pointwise. intros m.
    now apply aboveLogThreshold_antitone.
Qed.

(** An instance of C9: one frame of one bin, thresholds 0.5 and 0.9. *)
Lemma decide_threshold_monotone_witness :
  let d1 := Detector.decide [[1]] [[0]] [1] 0.5 in
  let d2 := Detector.decide [[1]] [[0]] [1] 0.9 in
  (nonSpeechCount d1 <= nonSpeechCount d2)%nat.
Proof.
  assert (Ht : 0 < 0.5 <= 0.9) by lra.
  exact (proj2 (proj2 (decide_threshold_monotone [[1]] [[0]] [1] 0.5 0.9 Ht))).
Defined.

(** ** Bins of zero noise power *)

Lemma binLikelihood_zero_noise (xiMJ y : R) :
  Detector.binLikelihood xiMJ 0 y = 1.
Proof.
  unfold Detector.binLikelihood.
  rewrite orElse_zero, Rmult_0_r.
  unfold Rdiv. rewrite !Rmult_0_l, Rmult_0_r, Rmult_0_l, Rplus_0_r, Rinv_1, exp_0.
  lra.
Qed.

Lemma logTerm_zero_noise (xiMJ y : R) :
  ln (Rmax (Detector.binLikelihood xiMJ 0 y) EPSILON) = 0.
Proof.
  rewrite binLikelihood_zero_noise.
  rewrite Rmax_left by (pose proof EPSILON_lt_1; lra).
  apply ln_1.
Qed.

(** C10: a bin whose noise power is exactly zero has likelihood ratio 1
    and adds 0 to the sum of the frame, whatever its spectrum value and SNR
    estimate: two frames (with their SNR vectors) that differ only in such
    bins get the same sum, the same average and the same decision. *)
Theorem zero_noise_bins_do_not_count
    (frame frame' xiM xiM' sigmaN : list R) (threshold : R) :
  length frame' = length frame ->
  length sigmaN = length frame ->
  (forall j, (j < length frame)%nat -> nth j sigmaN 0 <> 0 ->
     nth j frame' 0 = nth j frame 0 /\ nth j xiM' 0 = nth j xiM 0) ->
  (forall j, (j < length frame)%nat -> nth j sigmaN 0 = 0 ->
     Detector.binLikelihood (nth j xiM 0) (nth j sigmaN 0) (nth j frame 0) = 1
     /\ ln (Rmax (Detector.binLikelihood (nth j xiM 0) (nth j sigmaN 0) (nth j frame 0))
                 EPSILON) = 0)
  /\ Detector.sumLogL frame' xiM' sigmaN = Detector.sumLogL frame xiM sigmaN
  /\ Detector.avgLogL frame' xiM' sigmaN = Detector.avgLogL frame xiM sigmaN
  /\ Detector.aboveLogThreshold (Detector.avgLogL frame' xiM' sigmaN) threshold
     = Detector.aboveLogThreshold (Detector.avgLogL frame xiM sigmaN) threshold.
Proof.
  intros Hlen _ Hsame.
  assert (Hsum : Detector.sumLogL frame' xiM' sigmaN = Detector.sumLogL frame xiM sigmaN).
  { rewrite !sumLogL_Rsum, Hlen. apply Rsum_ext. intros j Hj.
    destruct (Req_dec_T (nth j sigmaN 0) 0) as [E|E].
    - now rewrite E, !logTerm_zero_noise.
    - now destruct (Hsame j Hj E) as [-> ->]. }
  assert (Havg : Detector.avgLogL frame' xiM' sigmaN = Detector.avgLogL frame xiM sigmaN).
  { unfold Detector.avgLogL. now rewrite Hsum, Hlen. }
  split.
  - intros j _ E. rewrite E. split.
    + apply binLikelihood_zero_noise.
    + apply logTerm_zero_noise.
  - split; [exact Hsum|]. split; [exact Havg|]. now rewrite Havg.
Qed.

(** An instance of C10: two bins, the second of zero noise power; the
    second spectrum value and SNR estimate are changed. *)
Lemma zero_noise_bins_do_not_count_witness :
  Detector.avgLogL [1; 7] [2; 9] [1; 0] = Detector.avgLogL [1; 3] [2; 5] [1; 0].
Proof.
  assert (Hsame : forall j, (j < length [1; 3])%nat -> nth j [1; 0] 0 <> 0 ->
            nth j [1; 7] 0 = nth j [1; 3] 0 /\ nth j [2; 9] 0 = nth j [2; 5] 0).
  { intros [|[|j]] Hj Hn; simpl in *; try lia.
    - split; reflexivity.
    - contradiction. }
  exact (proj1 (proj2 (proj2
           (zero_noise_bins_do_not_count [1; 3] [1; 7] [2; 5] [2; 9] [1; 0] 0.5
              eq_refl eq_refl Hsame)))).
Defined.

(** ** Transform engine *)

Section Forward.

Variables (n : nat) (input : list R).

Let cosTerm (i j : nat) : R := nth j input 0 * cos ((2 * PI * INR i * INR j) / INR n).
Let sinTerm (i j : nat) : R := nth j input 0 * sin ((2 * PI * INR i * INR j) / INR n).

(** The inner loop adds [m] cosine terms to [real[i]], subtracts [m] sine
    terms from [imag[i]], and leaves every other cell alone. *)
Lemma inner_loop (i m : nat) (real imag : list R) :
  (i < length real)%nat -> (i < length imag)%nat ->
  let w := fold_left (FFT.step n input i) (seq 0 m) (real, imag) in
  length (fst w) = length real /\ length (snd w) = length imag
  /\ (forall k, nth k (fst w) 0 =
                if (k =? i)%nat then nth i real 0 + Rsum m (cosTerm i) else nth k real 0)
  /\ (forall k, nth k (snd w) 0 =
                if (k =? i)%nat then nth i imag 0 - Rsum m (sinTerm i) else nth k imag 0).
Proof.
  intros Hr Hi. induction m as [|m IH].
  - simpl. repeat split; auto; intros k;
      destruct (Nat.eqb_spec k i) as [->|]; auto; lra.
  - rewrite seq_S, fold_left_app. cbn [fold_left Nat.add].
    cbv zeta in IH.
    destruct (fold_left (FFT.step n input i) (seq 0 m) (real, imag)) as [re im].
    cbn [fst snd] in IH. destruct IH as (Hlr & Hli & Hre & Him).
    unfold FFT.step. cbn [fst snd].
    rewrite !upd_length. repeat split; auto; intros k.
    + destruct (Nat.eqb_spec k i) as [->|Hne].
      * rewrite nth_upd_same by lia. rewrite (Hre i), Nat.eqb_refl.
        cbn [Rsum]. unfold cosTerm. lra.
      * rewrite nth_upd_other by auto. rewrite (Hre k).
        now destruct (Nat.eqb_spec k i).
    + destruct (Nat.eqb_spec k i) as [->|Hne].
      * rewrite nth_upd_same by lia. rewrite (Him i), Nat.eqb_refl.
        cbn [Rsum]. unfold sinTerm. lra.
      * rewrite nth_upd_other by auto. rewrite (Him k).
        now destruct (Nat.eqb_spec k i).
Qed.

(** The outer loop, after rows [0 .. m-1]. *)
Lemma outer_loop (m : nat) (real imag : list R) :
  (m <= length real)%nat -> (m <= length imag)%nat ->
  let w := fold_left (fun w i => fold_left (FFT.step n input i) (seq 0 n) w)
                     (seq 0 m) (real, imag) in
  length (fst w) = length real /\ length (snd w) = length imag
  /\ (forall k, nth k (fst w) 0 =
                if (k <? m)%nat then nth k real 0 + Rsum n (cosTerm k) else nth k real 0)
  /\ (forall k, nth k (snd w) 0 =
                if (k <? m)%nat then nth k imag 0 - Rsum n (sinTerm k) else nth k imag 0).
Proof.
  intros Hr Hi. induction m as [|m IH].
  - simpl. repeat split; auto.
  - rewrite seq_S, fold_left_app. cbn [fold_left Nat.add].
    specialize (IH ltac:(lia) ltac:(lia)). cbv zeta in IH.
    destruct (fold_left (fun w i => fold_left (FFT.step n input i) (seq 0 n) w)
                        (seq 0 m) (real, imag)) as [re im].
    cbn [fst snd] in IH. destruct IH as (Hlr & Hli & Hre & Him).
    destruct (inner_loop m n re im ltac:(lia) ltac:(lia)) as (Hlr' & Hli' & Hre' & Him').
    split; [congruence|]. split; [congruence|]. split; intros k.
    + rewrite Hre'. destruct (Nat.eqb_spec k m) as [->|Hne].
      * rewrite Hre.
        assert (E1 : (m <? m)%nat = false) by (apply Nat.ltb_ge; lia).
        assert (E2 : (m <? S m)%nat = true) by (apply Nat.ltb_lt; lia).
        now rewrite E1, E2.
      * rewrite Hre.
        destruct (k <? m)%nat eqn:E1, (k <? S m)%nat eqn:E2; auto;
          [apply Nat.ltb_lt in E1; apply Nat.ltb_ge in E2
          |apply Nat.ltb_ge in E1; apply Nat.ltb_lt in E2]; lia.
    + rewrite Him'. destruct (Nat.eqb_spec k m) as [->|Hne].
      * rewrite Him.
        assert (E1 : (m <? m)%nat = false) by (apply Nat.ltb_ge; lia).
        assert (E2 : (m <? S m)%nat = true) by (apply Nat.ltb_lt; lia).
        now rewrite E1, E2.
      * rewrite Him.
        destruct (k <? m)%nat eqn:E1, (k <? S m)%nat eqn:E2; auto;
          [apply Nat.ltb_lt in E1; apply Nat.ltb_ge in E2
          |apply Nat.ltb_ge in E1; apply Nat.ltb_lt in E2]; lia.
Qed.

(** What [forward] returns on a frame of the configured size: bin [k] is
    the modulus of the pair whose real part is [input[k]] plus the cosine
    sum and whose imaginary part is minus the sine sum. *)
Lemma forward_bins (fft : FFT.t) :
  FFT.size fft = n -> length input = n ->
  FFT.forward fft input =
  Returned (map (fun k => sqrt ((nth k input 0 + Rsum n (cosTerm k))
                                * (nth k input 0 + Rsum n (cosTerm k))
                                + (0 - Rsum n (sinTerm k)) * (0 - Rsum n (sinTerm k))))
                (seq 0 n)).
Proof.
  intros Hsize Hlen. unfold FFT.forward. rewrite Hsize, Hlen, Nat.eqb_refl.
  cbn [negb]. unfold FFT.loops.
  destruct (outer_loop n input (repeat 0 n)) as (_ & _ & Hre & Him);
    [lia | rewrite repeat_length; lia |].
  destruct (fold_left (fun w i => fold_left (FFT.step n input i) (seq 0 n) w)
                      (seq 0 n) (input, repeat 0 n)) as [re im].
  cbn [fst snd] in Hre, Him.
  f_equal. apply map_ext_in. intros k Hk.
  apply in_seq in Hk.
  assert (E : (k <? n)%nat = true) by (apply Nat.ltb_lt; lia).
  now rewrite Hre, Him, E, nth_repeat_zero.
Qed.

End Forward.

(** ** The transform of the code and the discrete Fourier transform *)

Lemma Re_Csum (n : nat) (f : nat -> C) : Re (Csum n f) = Rsum n (fun j => Re (f j)).
Proof.
  induction n as [|n IH]; simpl; [reflexivity | now rewrite IH].
Qed.

Lemma Im_Csum (n : nat) (f : nat -> C) : Im (Csum n f) = Rsum n (fun j => Im (f j)).
Proof.
  induction n as [|n IH]; simpl; [reflexivity | now rewrite IH].
Qed.

Lemma Rsum_opp (n : nat) (f : nat -> R) : Rsum n (fun j => - f j) = - Rsum n f.
Proof.
  induction n as [|n IH]; simpl; [lra | rewrite IH; lra].
Qed.

Lemma nth_RtoC (x : list R) (j : nat) : nth j (map RtoC x) C0 = RtoC (nth j x 0).
Proof.
  change C0 with (RtoC 0). apply map_nth.
Qed.

(** The real part of [X[k]] is the cosine sum, its imaginary part is minus
    the sine sum. *)
Lemma Re_dft_real (x : list R) (k : nat) :
  Re (dft (map RtoC x) k) =
  Rsum (length x)
       (fun j => nth j x 0 * cos ((2 * PI * INR k * INR j) / INR (length x))).
Proof.
  unfold dft. rewrite Re_Csum, length_map.
  apply Rsum_ext. intros j _. rewrite nth_RtoC. cbn [Re Im Cmul RtoC expi].
  rewrite cos_neg.
  replace (2 * PI * INR j * INR k / INR (length x))
    with (2 * PI * INR k * INR j / INR (length x)) by (unfold Rdiv; ring).
  ring.
Qed.

Lemma Im_dft_real (x : list R) (k : nat) :
  Im (dft (map RtoC x) k) =
  - Rsum (length x)
         (fun j => nth j x 0 * sin ((2 * PI * INR k * INR j) / INR (length x))).
Proof.
  unfold dft. rewrite Im_Csum, length_map, <- Rsum_opp.
  apply Rsum_ext. intros j _. rewrite nth_RtoC. cbn [Re Im Cmul RtoC expi].
  rewrite sin_neg.
  replace (2 * PI * INR j * INR k / INR (length x))
    with (2 * PI * INR k * INR j / INR (length x)) by (unfold Rdiv; ring).
  ring.
Qed.

(** The code returns [|x[k] + X[k]|], not [|X[k]|]: the copy of the input
    made on line 32 stays in the real part. *)
Lemma forward_is_dft_plus_input (fft : FFT.t) (input : list R) :
  length input = FFT.size fft ->
  FFT.forward fft input =
  Returned (map (fun k => Cmod (Cadd (RtoC (nth k input 0)) (dft (map RtoC input) k)))
                (seq 0 (length input))).
Proof.
  intros Hlen.
  rewrite (forward_bins (length input) input fft) by auto.
  f_equal. apply map_ext. intros k.
  unfold Cmod. cbn [Re Im Cadd RtoC].
  rewrite Re_dft_real, Im_dft_real. apply f_equal. ring.
Qed.

(** Replaces by [0] the angles that are products with a zero index. *)
Ltac zero_angles :=
  repeat match goal with
  | |- context [cos ?a] => progress (replace a with 0 by (simpl; unfold Rdiv; ring))
  | |- context [sin ?a] => progress (replace a with 0 by (simpl; unfold Rdiv; ring))
  end;
  rewrite ?cos_0, ?sin_0.

Lemma sqrt_of_square (v a : R) : 0 <= v -> a = v * v -> sqrt a = v.
Proof.
  intros Hv ->. now apply sqrt_square.
Qed.

(** C1 (the code differs): on the frame [1, 0] of a transform of size 2 the
    code returns the magnitudes [2, 1]; the discrete Fourier transform of
    that frame has the magnitudes [1, 1]. *)
Theorem forward_keeps_input_in_real_part :
  exists fft : FFT.t,
    FFT.new 2 = Returned fft
    /\ FFT.forward fft [1; 0] = Returned [2; 1]
    /\ dftMagnitudes [1; 0] = [1; 1].
Proof.
  eexists. split; [reflexivity|]. split.
  - rewrite (forward_bins 2 [1; 0]) by reflexivity.
    cbn [map seq Rsum nth]. f_equal.
    f_equal; [|f_equal]; apply sqrt_of_square; try lra; zero_angles; ring.
  - change (dftMagnitudes [1; 0])
      with [Cmod (dft (map RtoC [1; 0]) 0); Cmod (dft (map RtoC [1; 0]) 1)].
    unfold Cmod. rewrite !Re_dft_real, !Im_dft_real.
    cbn [length Rsum nth].
    f_equal; [|f_equal]; apply sqrt_of_square; try lra; zero_angles; ring.
Qed.

(** ** The fast transform computes the discrete Fourier transform *)

Lemma C_eq (z w : C) : Re z = Re w -> Im z = Im w -> z = w.
Proof.
  destruct z, w. simpl. now intros -> ->.
Qed.

(** Equations between complex expressions, component by component. *)
Ltac Cring :=
  apply C_eq; cbn [Re Im Cadd Csub Cmul C0 RtoC expi]; ring.

Lemma Csum_ext (n : nat) (f g : nat -> C) :
  (forall j, (j < n)%nat -> f j = g j) -> Csum n f = Csum n g.
Proof.
  induction n as [|n IH]; intros H; simpl; [reflexivity|].
  rewrite IH, H; auto.
Qed.

Lemma Csum_even_odd (h : nat) (f : nat -> C) :
  Csum (2 * h) f =
  Cadd (Csum h (fun m => f (2 * m)%nat)) (Csum h (fun m => f (S (2 * m)))).
Proof.
  induction h as [|h IH].
  - simpl. Cring.
  - replace (2 * S h)%nat with (S (S (2 * h))) by lia.
    cbn [Csum]. rewrite IH. Cring.
Qed.

Lemma Csum_Cmul_l (c : C) (n : nat) (g : nat -> C) :
  Cmul c (Csum n g) = Csum n (fun j => Cmul c (g j)).
Proof.
  induction n as [|n IH]; cbn [Csum].
  - Cring.
  - rewrite <- IH. Cring.
Qed.

Lemma expi_plus (a b : R) : expi (a + b) = Cmul (expi a) (expi b).
Proof.
  apply C_eq; cbn [Re Im Cmul expi]; [rewrite cos_plus | rewrite sin_plus]; ring.
Qed.

Lemma expi_period (a : R) (m : nat) : expi (a - 2 * PI * INR m) = expi a.
Proof.
  unfold expi.
  rewrite <- (cos_period (a - 2 * PI * INR m) m).
  rewrite <- (sin_period (a - 2 * PI * INR m) m).
  now replace (a - 2 * PI * INR m + 2 * INR m * PI) with a by ring.
Qed.

Lemma expi_neg_PI : expi (- PI) = mkC (-1) 0.
Proof.
  unfold expi. rewrite cos_neg, sin_neg, cos_PI, sin_PI. f_equal. ring.
Qed.

(** Induction on lists, two elements at a time. *)
Lemma list_pair_ind {A : Type} (P : list A -> Prop) :
  P [] -> (forall a, P [a]) -> (forall a b l, P l -> P (a :: b :: l)) ->
  forall l, P l.
Proof.
  intros H0 H1 H2.
  assert (H : forall l, P l /\ forall a, P (a :: l)).
  { induction l as [|b l [IHl IHal]]; split; auto. }
  intros l. apply H.
Qed.

Lemma evens_odds_length {A : Type} (l : list A) (h : nat) :
  length l = (2 * h)%nat ->
  length (FastFFT.evens l) = h /\ length (FastFFT.odds l) = h.
Proof.
  revert h. induction l as [| a | a b l IH] using list_pair_ind; intros h Hl.
  - simpl in *. split; lia.
  - simpl in Hl. lia.
  - destruct h as [|h]; [simpl in Hl; lia|].
    destruct (IH h) as [He Ho]; [simpl in Hl; lia|].
    change (FastFFT.evens (a :: b :: l)) with (a :: FastFFT.evens l).
    change (FastFFT.odds (a :: b :: l)) with (b :: FastFFT.odds l).
    simpl. split; congruence.
Qed.

Lemma nth_evens_odds {A : Type} (l : list A) (d : A) (m : nat) :
  nth (2 * m) l d = nth m (FastFFT.evens l) d
  /\ nth (S (2 * m)) l d = nth m (FastFFT.odds l) d.
Proof.
  revert m. induction l as [| a | a b l IH] using list_pair_ind; intros m.
  - cbn [FastFFT.evens FastFFT.odds].
    now rewrite !nth_overflow by (simpl; lia).
  - cbn [FastFFT.evens FastFFT.odds].
    rewrite (nth_overflow [a] d (n := S (2 * m))) by (simpl; lia).
    rewrite (nth_overflow [] d (n := m)) by (simpl; lia).
    split; [|reflexivity].
    destruct m as [|m]; [reflexivity|].
    now rewrite !nth_overflow by (simpl; lia).
  - change (FastFFT.evens (a :: b :: l)) with (a :: FastFFT.evens l).
    change (FastFFT.odds (a :: b :: l)) with (b :: FastFFT.odds l).
    destruct m as [|m]; [simpl; auto|].
    replace (2 * S m)%nat with (S (S (2 * m))) by lia.
    cbn [nth]. apply IH.
Qed.

(** The decimation step: [X[k]] of a block of even length from the
    transforms of its even-indexed and of its odd-indexed samples. *)
Lemma dft_decimation (x : list C) (h k : nat) :
  (0 < h)%nat -> length x = (2 * h)%nat ->
  dft x k =
  Cadd (dft (FastFFT.evens x) k)
       (Cmul (expi (- (2 * PI * INR k / INR (2 * h)))) (dft (FastFFT.odds x) k)).
Proof.
  intros Hh Hlen.
  destruct (evens_odds_length x h Hlen) as [He Ho].
  assert (HhR : INR h <> 0) by (apply not_0_INR; lia).
  unfold dft. rewrite Hlen, He, Ho, Csum_even_odd, Csum_Cmul_l.
  f_equal; apply Csum_ext; intros m _.
  - rewrite (proj1 (nth_evens_odds x C0 m)). f_equal. f_equal.
    rewrite !mult_INR. simpl INR. field. exact HhR.
  - rewrite (proj2 (nth_evens_odds x C0 m)).
    replace (- (2 * PI * INR (S (2 * m)) * INR k / INR (2 * h)))
      with (- (2 * PI * INR k / INR (2 * h)) + - (2 * PI * INR m * INR k / INR h)).
    + rewrite expi_plus. Cring.
    + rewrite S_INR, !mult_INR. simpl INR. field. exact HhR.
Qed.

(** [X[k]] has period [N] in [k]. *)
Lemma dft_period (x : list C) (k : nat) :
  (0 < length x)%nat -> dft x (k + length x) = dft x k.
Proof.
  intros Hlen.
  assert (HN : INR (length x) <> 0) by (apply not_0_INR; lia).
  unfold dft. apply Csum_ext. intros j _. f_equal.
  rewrite <- (expi_period (- (2 * PI * INR j * INR k / INR (length x))) j).
  f_equal. rewrite plus_INR. field. exact HN.
Qed.

Lemma twiddle_half_turn (h k : nat) :
  (0 < h)%nat ->
  expi (- (2 * PI * INR (k + h) / INR (2 * h))) =
  Cmul (mkC (-1) 0) (expi (- (2 * PI * INR k / INR (2 * h)))).
Proof.
  intros Hh.
  assert (HhR : INR h <> 0) by (apply not_0_INR; lia).
  rewrite <- expi_neg_PI, <- expi_plus. f_equal.
  rewrite plus_INR, mult_INR. simpl INR. field. exact HhR.
Qed.

Lemma radix2_length (levels : nat) (x : list C) :
  length x = (2 ^ levels)%nat -> length (FastFFT.radix2 levels x) = (2 ^ levels)%nat.
Proof.
  destruct levels as [|p]; intros Hlen; [exact Hlen|].
  cbn [FastFFT.radix2]. rewrite length_app, !length_map, !length_seq.
  rewrite Nat.pow_succ_r'. lia.
Qed.

(** The spec-modelled fast transform returns [X[k]] in every bin. *)
Lemma radix2_is_dft (levels : nat) :
  forall (x : list C) (k : nat),
    length x = (2 ^ levels)%nat -> (k < 2 ^ levels)%nat ->
    nth k (FastFFT.radix2 levels x) C0 = dft x k.
Proof.
  induction levels as [|p IH]; intros x k Hlen Hk.
  - simpl in Hlen, Hk. replace k with 0%nat by lia.
    destruct x as [|a [|b x]]; simpl in Hlen; try lia.
    unfold dft. cbn [FastFFT.radix2 nth length Csum].
    replace (- (2 * PI * INR 0 * INR 0 / INR 1)) with 0 by (simpl; field).
    unfold expi. rewrite cos_0, sin_0. Cring.
  - rewrite Nat.pow_succ_r' in Hlen, Hk.
    assert (Hpos : (0 < 2 ^ p)%nat) by (apply Nat.neq_0_lt_0, Nat.pow_nonzero; lia).
    destruct (evens_odds_length x (2 ^ p) Hlen) as [He Ho].
    rewrite (dft_decimation x (2 ^ p) k Hpos Hlen).
    cbn [FastFFT.radix2].
    destruct (Nat.lt_ge_cases k (2 ^ p)) as [Hlow|Hhigh].
    + rewrite app_nth1 by (rewrite length_map, length_seq; exact Hlow).
      rewrite nth_map_seq by exact Hlow.
      now rewrite !IH by assumption.
    + assert (Hq : (k - 2 ^ p < 2 ^ p)%nat) by lia.
      assert (Ek : k = (k - 2 ^ p + 2 ^ p)%nat) by lia.
      revert Hq Ek. generalize (k - 2 ^ p)%nat. intros q Hq ->.
      rewrite app_nth2 by (rewrite length_map, length_seq; lia).
      rewrite length_map, length_seq, Nat.add_sub.
      rewrite nth_map_seq by exact Hq.
      rewrite !IH by assumption.
      rewrite twiddle_half_turn by exact Hpos.
      pose proof (dft_period (FastFFT.evens x) q ltac:(lia)) as Pe.
      pose proof (dft_period (FastFFT.odds x) q ltac:(lia)) as Po.
      rewrite He in Pe. rewrite Ho in Po. rewrite Pe, Po.
      Cring.
Qed.

(** On a block of [2 ^ levels] real samples, the spec-modelled fast
    transform returns exactly the magnitudes [|X[k]|]. *)
Lemma fast_forward_is_dft (fft : FastFFT.t) (x : list R) :
  length x = FastFFT.size fft ->
  length x = (2 ^ FastFFT.levels fft)%nat ->
  FastFFT.forward fft x = Returned (dftMagnitudes x).
Proof.
  intros Hsize Hpow. unfold FastFFT.forward.
  rewrite <- Hsize, Nat.eqb_refl. cbn [negb]. f_equal.
  assert (Hlen : length (map RtoC x) = (2 ^ FastFFT.levels fft)%nat)
    by (now rewrite length_map).
  unfold dftMagnitudes.
  apply (nth_ext _ _ 0 0).
  - now rewrite !length_map, length_seq, radix2_length.
  - intros k Hk. rewrite length_map, radix2_length in Hk by exact Hlen.
    rewrite nth_map_seq by lia.
    rewrite (nth_indep _ 0 (Cmod C0))
      by (now rewrite length_map, radix2_length).
    rewrite (map_nth Cmod).
    now rewrite radix2_is_dft.
Qed.

(** The sum against a unit impulse picks the term of index 0. *)
Lemma Rsum_impulse (m zeros : nat) (g : nat -> R) :
  Rsum (S m) (fun j => nth j (1 :: repeat 0 zeros) 0 * g j) = g 0%nat.
Proof.
  induction m as [|m IH].
  - simpl. ring.
  - change (Rsum (S (S m)) (fun j => nth j (1 :: repeat 0 zeros) 0 * g j))
      with (Rsum (S m) (fun j => nth j (1 :: repeat 0 zeros) 0 * g j)
            + nth (S m) (1 :: repeat 0 zeros) 0 * g (S m)).
    rewrite IH. cbn [nth]. rewrite nth_repeat_zero. ring.
Qed.

(** Bin 0 of the discrete Fourier transform of a unit impulse is 1. *)
Lemma dft_impulse_bin0 (zeros : nat) :
  dft (map RtoC (1 :: repeat 0 zeros)) 0 = RtoC 1.
Proof.
  apply C_eq.
  - rewrite Re_dft_real. cbn [length]. rewrite Rsum_impulse.
    replace (2 * PI * INR 0 * INR 0 / INR (S (length (repeat 0 zeros))))
      with 0 by (simpl INR; unfold Rdiv; ring).
    apply cos_0.
  - rewrite Im_dft_real. cbn [length]. rewrite Rsum_impulse.
    replace (2 * PI * INR 0 * INR 0 / INR (S (length (repeat 0 zeros))))
      with 0 by (simpl INR; unfold Rdiv; ring).
    rewrite sin_0. cbn [Im RtoC]. ring.
Qed.

Lemma not_withinTolerance_2_1 : ~ withinTolerance 2 1.
Proof.
  unfold withinTolerance.
  replace (2 - 1) with 1 by ring.
  rewrite Rabs_R1, (Rabs_pos_eq 2) by lra.
  rewrite Rmax_left by lra.
  intros [H|H]; lra.
Qed.

(** The constructor accepts every size that passes its bit test. *)
Lemma FFT_new_accepts (n : nat) :
  ((n <=? 0)%nat || negb (Nat.land n (n - 1) =? 0)%nat) = false ->
  exists fft, FFT.new n = Returned fft /\ FFT.size fft = n.
Proof.
  intros Hok. unfold FFT.new. rewrite Hok.
  eexists. split; reflexivity.
Qed.

(** C5 (the code differs): on the unit impulse of 64 samples, bin 0 of the
    transform of the code is 2 and bin 0 of the spec-modelled fast radix-2
    transform is 1; the two are not within the tolerance of each other. *)
Theorem forward_disagrees_with_fast_transform :
  let frame := 1 :: repeat 0 63 in
  exists (fft : FFT.t) (fast : FastFFT.t) (reference fastOut : list R),
    FFT.new 64 = Returned fft
    /\ FastFFT.new 64 = Returned fast
    /\ FFT.forward fft frame = Returned reference
    /\ FastFFT.forward fast frame = Returned fastOut
    /\ nth 0 reference 0 = 2
    /\ nth 0 fastOut 0 = 1
    /\ ~ withinTolerance (nth 0 reference 0) (nth 0 fastOut 0).
Proof.
  intros frame.
  assert (Hlen : length frame = 64%nat) by reflexivity.
  assert (Hfast : nth 0 (dftMagnitudes frame) 0 = 1).
  { unfold dftMagnitudes. rewrite nth_map_seq by (rewrite Hlen; lia).
    unfold frame. rewrite dft_impulse_bin0.
    apply sqrt_of_square; [lra | cbn [Re Im RtoC]; ring]. }
  assert (Href : nth 0 (map (fun k => Cmod (Cadd (RtoC (nth k frame 0))
                                              (dft (map RtoC frame) k)))
                            (seq 0 (length frame))) 0 = 2).
  { rewrite nth_map_seq by (rewrite Hlen; lia).
    unfold frame. rewrite dft_impulse_bin0.
    apply sqrt_of_square; [lra | cbn [Re Im RtoC Cadd nth]; ring]. }
  destruct (FFT_new_accepts 64) as (fft & Hnew & Hsize); [vm_compute; reflexivity|].
  exists fft. exists {| FastFFT.size := 64; FastFFT.levels := 6 |}. eexists. eexists.
  split; [exact Hnew|]. split; [vm_compute; reflexivity|].
  split; [apply forward_is_dft_plus_input; now rewrite Hsize|].
  split; [apply fast_forward_is_dft; reflexivity|].
  split; [exact Href|]. split; [exact Hfast|].
  rewrite Href, Hfast. exact not_withinTolerance_2_1.
Qed.

(** * Further properties of the code *)

(** ** The size test of the transform *)

Lemma land_pred_power (k : nat) : Nat.land (2 ^ k) (2 ^ k - 1) = 0%nat.
Proof.
  replace (2 ^ k - 1)%nat with (Nat.ones k) by (rewrite Nat.ones_equiv; lia).
  rewrite Nat.land_ones. apply Nat.Div0.mod_same.
Qed.

Lemma land_pred_zero_power (n : nat) :
  (0 < n)%nat -> Nat.land n (n - 1) = 0%nat -> exists k, n = (2 ^ k)%nat.
Proof.
  induction n as [n IH] using lt_wf_ind. intros Hpos Hland.
  pose proof (Nat.div2_odd n) as Hn.
  destruct (Nat.odd n) eqn:Hodd; simpl Nat.b2n in Hn.
  - (* n = 2m + 1, n - 1 = 2m *)
    set (m := Nat.div2 n) in *.
    replace (n - 1)%nat with (2 * m)%nat in Hland by lia.
    rewrite Hn, Nat.land_odd_l in Hland.
    rewrite Nat.div2_double, Nat.land_diag in Hland.
    exists 0%nat. simpl. lia.
  - (* n = 2m with m > 0, n - 1 = 2(m-1) + 1 *)
    set (m := Nat.div2 n) in *.
    assert (Hm : (0 < m)%nat) by lia.
    replace (n - 1)%nat with (2 * (m - 1) + 1)%nat in Hland by lia.
    rewrite Hn, Nat.add_0_r, Nat.land_even_l in Hland.
    replace (2 * (m - 1) + 1)%nat with (S (2 * (m - 1))) in Hland by lia.
    rewrite Nat.div2_succ_double in Hland.
    destruct (IH m) as [k Hk]; [lia | exact Hm | lia |].
    exists (S k). rewrite Nat.pow_succ_r'. lia.
Qed.

(** X1: for a size below 2^32, where the 32-bit [&] of the code is the
    bitwise and of the numbers, the constructor of the transform succeeds
    exactly for the powers of two [1, 2, 4, ...], and then keeps the size
    and tabulates one cosine and one sine per index. *)
Theorem FFT_new_iff_power_of_two (n : nat) :
  (Nat.log2 n < 32)%nat ->
  ((exists fft, FFT.new n = Returned fft) <-> (exists k, n = (2 ^ k)%nat))
  /\ (forall fft, FFT.new n = Returned fft ->
        FFT.size fft = n
        /\ length (FFT.cosTable fft) = n /\ length (FFT.sinTable fft) = n)
  /\ ((forall k, n <> (2 ^ k)%nat) -> FFT.new n = Thrown BadFFTSize).
Proof.
  intros _. unfold FFT.new.
  destruct ((n <=? 0)%nat || negb (Nat.land n (n - 1) =? 0)%nat) eqn:Htest.
  - assert (Hnot : forall k, n <> (2 ^ k)%nat).
    { intros k ->. apply orb_true_iff in Htest. destruct Htest as [H|H].
      - apply Nat.leb_le in H.
        pose proof (Nat.pow_nonzero 2 k ltac:(lia)). lia.
      - rewrite land_pred_power in H. discriminate. }
    split; [split|split].
    + intros [fft H]. discriminate.
    + intros [k Hk]. destruct (Hnot k Hk).
    + intros fft H. discriminate.
    + reflexivity.
  - apply orb_false_iff in Htest. destruct Htest as [Hpos Hland].
    apply Nat.leb_gt in Hpos.
    apply negb_false_iff, Nat.eqb_eq in Hland.
    destruct (land_pred_zero_power n Hpos Hland) as [k Hk].
    split; [split|split].
    + intros _. now exists k.
    + intros _. eexists. reflexivity.
    + intros fft H. injection H as <-. cbn [FFT.size FFT.cosTable FFT.sinTable].
      now rewrite !length_map, length_seq.
    + intros Hnot. destruct (Hnot k Hk).
Qed.

(** An instance of X1: size 8 is accepted. *)
Lemma FFT_new_iff_power_of_two_witness :
  exists fft, FFT.new 8 = Returned fft.
Proof.
  assert (Hsmall : (Nat.log2 8 < 32)%nat) by (vm_compute; lia).
  apply (proj1 (FFT_new_iff_power_of_two 8 Hsmall)).
  exists 3%nat. reflexivity.
Defined.

(** ** What [forward] returns *)

Lemma forward_cases (fft : FFT.t) (input : list R) :
  FFT.forward fft input =
  if (length input =? FFT.size fft)%nat
  then Returned (map (fun k => Cmod (Cadd (RtoC (nth k input 0))
                                          (dft (map RtoC input) k)))
                     (seq 0 (length input)))
  else Thrown InputSizeMismatch.
Proof.
  destruct (length input =? FFT.size fft)%nat eqn:E.
  - apply Nat.eqb_eq in E. now apply forward_is_dft_plus_input.
  - unfold FFT.forward. now rewrite E.
Qed.

(** X2: [forward] throws when the length of the frame is not the size of
    the transform, and otherwise returns one magnitude per sample, bin [k]
    being the modulus of [x[k] + X[k]], with [X] the discrete Fourier
    transform of the frame. *)
Theorem forward_total_description (fft : FFT.t) (input : list R) :
  FFT.forward fft input =
  if (length input =? FFT.size fft)%nat
  then Returned (map (fun k => Cmod (Cadd (RtoC (nth k input 0))
                                          (dft (map RtoC input) k)))
                     (seq 0 (length input)))
  else Thrown InputSizeMismatch.
Proof.
  exact (forward_cases fft input).
Qed.

Lemma Rsum_zero (n : nat) (f : nat -> R) :
  (forall j, (j < n)%nat -> f j = 0) -> Rsum n f = 0.
Proof.
  induction n as [|n IH]; intros H; cbn [Rsum]; [reflexivity|].
  rewrite IH, H by auto. ring.
Qed.

(** X3: the transform of an all-zero frame is all zero. *)
Theorem forward_zero_frame (fft : FFT.t) (n : nat) :
  FFT.size fft = n ->
  FFT.forward fft (repeat 0 n) = Returned (repeat 0 n).
Proof.
  intros Hsize.
  rewrite (forward_bins n (repeat 0 n) fft Hsize (repeat_length 0 n)).
  f_equal.
  transitivity (map (fun _ : nat => 0) (seq 0 n)).
  - apply map_ext. intros k.
    rewrite !Rsum_zero by (intros j _; rewrite nth_repeat_zero; ring).
    rewrite nth_repeat_zero.
    apply sqrt_of_square; [lra | ring].
  - now rewrite map_const, length_seq.
Qed.

(** An instance of X3: the transform of size 4. *)
Lemma forward_zero_frame_witness :
  exists fft,
    FFT.new 4 = Returned fft
    /\ FFT.forward fft (repeat 0 4) = Returned (repeat 0 4).
Proof.
  eexists. split; [reflexivity|].
  apply (forward_zero_frame _ 4). reflexivity.
Defined.

(** ** The frames cut by [frameSignal] *)

Lemma offsetsBelow_lt_iff (bound h k : nat) :
  (0 < h)%nat -> (k < offsetsBelow bound h 0)%nat <-> (k * h < bound)%nat.
Proof.
  intros Hh. unfold offsetsBelow. rewrite Nat.sub_0_r. split; intros H.
  - destruct (Nat.lt_ge_cases (k * h) bound) as [|Hge]; [assumption|].
    exfalso.
    assert ((bound + (h - 1)) / h < k + 1)%nat.
    { apply Nat.Div0.div_lt_upper_bound. nia. }
    lia.
  - assert (S k <= (bound + (h - 1)) / h)%nat; [|lia].
    apply Nat.div_le_lower_bound; [lia | nia].
Qed.

(** X4: with a positive hop, a signal of at least one frame length and
    fuel for every offset, [frameSignal] returns; frame [k] exists exactly
    when [k * hop < L - F], has exactly [frameLength] samples, and its
    sample [j] is sample [k * hop + j] of the signal. *)
Theorem frameSignal_frames_are_slices (fuel : nat) (d : Detector.t) (signal : list R) :
  (0 < Detector.hopLength d)%nat ->
  (Detector.frameLength d <= length signal)%nat ->
  (length signal - Detector.frameLength d < fuel)%nat ->
  exists frames,
    Detector.frameSignal fuel d signal = Some (Returned frames)
    /\ (forall k, (k < length frames)%nat <->
                  (k * Detector.hopLength d
                   < length signal - Detector.frameLength d)%nat)
    /\ (forall k, (k < length frames)%nat ->
          length (nth k frames []) = Detector.frameLength d
          /\ forall j, (j < Detector.frameLength d)%nat ->
               nth j (nth k frames []) 0
               = nth (k * Detector.hopLength d + j) signal 0).
Proof.
  intros Hh HF Hfuel.
  eexists. split; [now apply frameSignal_frames|].
  rewrite length_map, length_seq.
  split.
  - intros k. now apply offsetsBelow_lt_iff.
  - intros k Hk.
    pose proof (proj1 (offsetsBelow_lt_iff _ _ k Hh) Hk) as Hoff.
    rewrite (nth_indep _ [] (slice signal (0 * Detector.hopLength d)
                                   (0 * Detector.hopLength d + Detector.frameLength d)))
      by (now rewrite length_map, length_seq).
    rewrite (map_nth (fun k => slice signal (k * Detector.hopLength d)
                                     (k * Detector.hopLength d + Detector.frameLength d))).
    rewrite seq_nth by exact Hk. cbn [Nat.add].
    split.
    + rewrite slice_length by lia. lia.
    + intros j Hj. apply nth_slice. lia.
Qed.

(** An instance of X4: frame length 4, hop 2, seven samples. *)
Lemma frameSignal_frames_are_slices_witness :
  let signal := [1; 2; 3; 4; 5; 6; 7] in
  exists d frames,
    Detector.new 4 2 16000 = Returned d
    /\ Detector.frameSignal 4 d signal = Some (Returned frames)
    /\ (forall k, (k < length frames)%nat <-> (k * 2 < 3)%nat).
Proof.
  intros signal. eexists.
  destruct (frameSignal_frames_are_slices 4
              {| Detector.frameLength := 4; Detector.hopLength := 2;
                 Detector.sampleRate := 16000;
                 Detector.fft := {| FFT.size := 4;
                                    FFT.cosTable := map (fun i => cos (2 * PI * INR i / INR 4))
                                                        (seq 0 4);
                                    FFT.sinTable := map (fun i => sin (2 * PI * INR i / INR 4))
                                                        (seq 0 4) |} |}
              signal)
    as (frames & Hret & Hcount & _); [simpl; lia | simpl; lia | simpl; lia |].
  exists frames. split; [reflexivity|]. split; [exact Hret | exact Hcount].
Defined.

(** X5: with a hop of zero and a signal longer than one frame, the loop
    of [frameSignal] pushes frames for ever: no amount of fuel lets it
    return. *)
Theorem frameSignal_zero_hop_never_returns (fuel : nat) (d : Detector.t) (signal : list R) :
  Detector.hopLength d = 0%nat ->
  (Detector.frameLength d < length signal)%nat ->
  Detector.frameSignal fuel d signal = None.
Proof.
  intros Hh HF. unfold Detector.frameSignal.
  assert (Hge : (length signal <? Detector.frameLength d)%nat = false)
    by (apply Nat.ltb_ge; lia).
  rewrite Hge, Hh, frameLoop_stuck by lia.
  reflexivity.
Qed.

(** An instance of X5: frame length 2, hop 0, three samples. *)
Lemma frameSignal_zero_hop_never_returns_witness :
  exists d,
    Detector.new 2 0 16000 = Returned d
    /\ Detector.frameSignal 1000 d [1; 2; 3] = None.
Proof.
  eexists. split; [reflexivity|].
  apply frameSignal_zero_hop_never_returns; [reflexivity | simpl; lia].
Defined.

(** ** The Hann window *)

Lemma hann_coefficient_bounds (q : R) : 0 <= 0.5 * (1 - cos q) <= 1.
Proof.
  pose proof (COS_bound q) as [Hlo Hhi]. lra.
Qed.

(** X6: in a frame of two samples or more, the first and the last
    windowed sample are zero, whatever the frame holds. *)
Theorem applyWindow_zero_at_both_ends (frame : list R) :
  (2 <= length frame)%nat ->
  nth 0 (Detector.applyWindow frame) None = Some 0
  /\ nth (length frame - 1) (Detector.applyWindow frame) None = Some 0.
Proof.
  intros HL. split.
  - rewrite applyWindow_hann by lia. f_equal.
    replace (2 * PI * INR 0 / (INR (length frame) - 1)) with 0
      by (simpl; unfold Rdiv; ring).
    rewrite cos_0. ring.
  - rewrite applyWindow_hann by lia. f_equal.
    assert (Hne : INR (length frame) - 1 <> 0).
    { apply le_INR in HL. simpl in HL. lra. }
    replace (2 * PI * INR (length frame - 1) / (INR (length frame) - 1)) with (2 * PI).
    + rewrite cos_2PI. ring.
    + rewrite minus_INR by lia. simpl INR. field. exact Hne.
Qed.

(** An instance of X6: a frame of three samples. *)
Lemma applyWindow_zero_at_both_ends_witness :
  nth 0 (Detector.applyWindow [5; 6; 7]) None = Some 0
  /\ nth 2 (Detector.applyWindow [5; 6; 7]) None = Some 0.
Proof.
  apply (applyWindow_zero_at_both_ends [5; 6; 7]). simpl. lia.
Defined.

(** X7: in a frame of two samples or more, every windowed sample is a
    number (no NaN) and is no larger in absolute value than the sample it
    comes from. *)
Theorem applyWindow_never_amplifies (frame : list R) (i : nat) :
  (2 <= length frame)%nat -> (i < length frame)%nat ->
  exists w,
    nth i (Detector.applyWindow frame) None = Some w
    /\ Rabs w <= Rabs (nth i frame 0).
Proof.
  intros HL Hi. eexists. split; [now apply applyWindow_hann|].
  rewrite Rabs_mult.
  pose proof (hann_coefficient_bounds
                (2 * PI * INR i / (INR (length frame) - 1))) as [Hlo Hhi].
  rewrite (Rabs_pos_eq (0.5 * _)) by exact Hlo.
  pose proof (Rabs_pos (nth i frame 0)). nra.
Qed.

(** An instance of X7: the middle sample of a frame of three. *)
Lemma applyWindow_never_amplifies_witness :
  exists w,
    nth 1 (Detector.applyWindow [5; 6; 7]) None = Some w /\ Rabs w <= Rabs 6.
Proof.
  apply (applyWindow_never_amplifies [5; 6; 7] 1); simpl; lia.
Defined.

Lemma applyWindow_single_sample_window (x : R) :
  Detector.applyWindow [x] = [None].
Proof.
  unfold Detector.applyWindow, mapi. simpl.
  unfold Detector.windowCoeff, jsdiv.
  destruct (Req_dec_T (INR 1 - 1) 0) as [E|E]; [reflexivity|].
  exfalso. apply E. simpl. lra.
Qed.

Lemma applyWindow_short (frame : list R) :
  (length frame <= 1)%nat ->
  Detector.applyWindow (rev frame) = rev (Detector.applyWindow frame).
Proof.
  destruct frame as [|x [|y frame]]; simpl length; intros H; try lia.
  - reflexivity.
  - change (rev [x]) with [x].
    now rewrite applyWindow_single_sample_window.
Qed.

Lemma hann_coefficient_mirror (L i : nat) :
  (2 <= L)%nat -> (i < L)%nat ->
  cos (2 * PI * INR (L - S i) / (INR L - 1)) = cos (2 * PI * INR i / (INR L - 1)).
Proof.
  intros HL Hi.
  assert (Hne : INR L - 1 <> 0).
  { apply le_INR in HL. simpl in HL. lra. }
  rewrite <- (cos_neg (2 * PI * INR i / (INR L - 1))).
  rewrite <- (cos_period (- (2 * PI * INR i / (INR L - 1))) 1).
  f_equal. rewrite minus_INR by lia. rewrite S_INR. simpl INR. field. exact Hne.
Qed.

(** X8: the window is symmetric: windowing the reversed frame gives the
    reversed windowed frame, for frames of every length. *)
Theorem applyWindow_commutes_with_reversal (frame : list R) :
  Detector.applyWindow (rev frame) = rev (Detector.applyWindow frame).
Proof.
  destruct (Nat.le_gt_cases (length frame) 1) as [Hshort|Hlong];
    [now apply applyWindow_short|].
  apply (nth_ext _ _ None None).
  - now rewrite length_rev, !applyWindow_length, length_rev.
  - intros i Hi. rewrite applyWindow_length, length_rev in Hi.
    rewrite applyWindow_hann by (rewrite length_rev; lia).
    rewrite (rev_nth (Detector.applyWindow frame))
      by (rewrite applyWindow_length; exact Hi).
    rewrite applyWindow_length.
    rewrite applyWindow_hann by lia.
    rewrite length_rev, (rev_nth frame) by exact Hi.
    now rewrite hann_coefficient_mirror by lia.
Qed.

(** ** Feature extraction *)

Lemma allFinite_map_Some {A : Type} (l : list A) :
  Detector.allFinite (map Some l) = Some l.
Proof.
  induction l as [|a l IH]; simpl; [reflexivity | now rewrite IH].
Qed.

Lemma allFinite_length {A : Type} (l : list (option A)) (w : list A) :
  Detector.allFinite l = Some w -> length w = length l.
Proof.
  revert w. induction l as [|[a|] l IH]; intros w H; simpl in H.
  - now injection H as <-.
  - destruct (Detector.allFinite l) as [t|]; [|discriminate].
    injection H as <-. simpl. now rewrite (IH t).
  - discriminate.
Qed.

(** From two samples on, the windowed frame is a list of numbers. *)
Lemma applyWindow_finite (frame : list R) :
  (2 <= length frame)%nat ->
  exists w, Detector.applyWindow frame = map Some w /\ length w = length frame.
Proof.
  intros HL.
  exists (map (fun i => nth i frame 0
                        * (0.5 * (1 - cos (2 * PI * INR i / (INR (length frame) - 1)))))
              (seq 0 (length frame))).
  split; [|now rewrite length_map, length_seq].
  apply (nth_ext _ _ None None).
  - now rewrite applyWindow_length, !length_map, length_seq.
  - intros i Hi. rewrite applyWindow_length in Hi.
    rewrite applyWindow_hann by lia.
    rewrite (nth_indep _ None (Some 0))
      by (now rewrite !length_map, length_seq).
    rewrite (map_nth Some). f_equal.
    now rewrite nth_map_seq.
Qed.

Lemma forward_length (fft : FFT.t) (input magnitude : list R) :
  FFT.forward fft input = Returned magnitude -> length magnitude = length input.
Proof.
  rewrite forward_cases.
  destruct (length input =? FFT.size fft)%nat; [|discriminate].
  intros H. injection H as <-. now rewrite length_map, length_seq.
Qed.

Lemma In_firstn {A : Type} (n : nat) (l : list A) (x : A) :
  In x (firstn n l) -> In x l.
Proof.
  revert l. induction n as [|n IH]; intros [|a l] H; simpl in *; try contradiction.
  destruct H as [H|H]; auto.
Qed.

Lemma slice_from_zero_nonneg (l : list R) (e : nat) :
  Forall (Rle 0) l -> Forall (Rle 0) (slice l 0 e).
Proof.
  intros H. unfold slice. rewrite Nat.sub_0_r. cbn [skipn].
  apply Forall_forall. intros x Hx.
  rewrite Forall_forall in H. apply H. eapply In_firstn, Hx.
Qed.

(** The spectrum of one frame of the configured length, two samples or
    more. *)
Lemma frameFeatures_spectrum (d : Detector.t) (frame : list R) :
  FFT.size (Detector.fft d) = Detector.frameLength d ->
  (2 <= Detector.frameLength d)%nat ->
  length frame = Detector.frameLength d ->
  exists spectrum,
    Detector.frameFeatures d frame = Returned (Some spectrum)
    /\ length spectrum = (Detector.frameLength d / 2 + 1)%nat
    /\ Forall (Rle 0) spectrum.
Proof.
  intros Hsize HF Hlen.
  destruct (applyWindow_finite frame) as (w & Hw & Hwlen); [lia|].
  unfold Detector.frameFeatures. rewrite Hw, allFinite_map_Some.
  destruct (FFT.forward (Detector.fft d) w) as [dft|e] eqn:Hfwd.
  - cbn [bind]. eexists. split; [reflexivity|].
    pose proof (forward_length _ _ _ Hfwd) as Hdft.
    split.
    + rewrite slice_length; [lia | lia |].
      rewrite Hdft, Hwlen, Hlen.
      pose proof (Nat.Div0.div_le_upper_bound (Detector.frameLength d) 2
                    (Detector.frameLength d - 1)).
      lia.
    + apply slice_from_zero_nonneg. eapply forward_nonneg, Hfwd.
  - exfalso. rewrite forward_cases in Hfwd.
    rewrite Hwlen, Hlen, Hsize, Nat.eqb_refl in Hfwd. discriminate.
Qed.

(** The spectra of frames of the configured length. *)
Lemma extractDFTFeatures_good_frames (d : Detector.t) (frames : list (list R)) :
  FFT.size (Detector.fft d) = Detector.frameLength d ->
  (2 <= Detector.frameLength d)%nat ->
  Forall (fun frame => length frame = Detector.frameLength d) frames ->
  exists spectra,
    Detector.extractDFTFeatures d frames = Returned (map Some spectra)
    /\ length spectra = length frames
    /\ rectangular (Detector.frameLength d / 2 + 1) spectra
    /\ Forall (Forall (Rle 0)) spectra.
Proof.
  intros Hsize HF Hall. unfold Detector.extractDFTFeatures, rectangular.
  induction Hall as [|frame frames Hlen _ IH].
  - exists []. repeat split; constructor.
  - destruct IH as (spectra & Hret & Hcount & Hrect & Hnn).
    destruct (frameFeatures_spectrum d frame Hsize HF Hlen) as (s & Hs & Hslen & Hsnn).
    exists (s :: spectra). cbn [Detector.mapThrowing].
    rewrite Hs, Hret. cbn [bind map length].
    repeat split; [now rewrite Hcount | now constructor | now constructor].
Qed.



Lemma frameFeatures_throws_iff (d : Detector.t) (frame : list R) :
  (exists e, Detector.frameFeatures d frame = Thrown e)
  <-> length frame <> FFT.size (Detector.fft d).
Proof.
  unfold Detector.frameFeatures.
  destruct (Detector.allFinite (Detector.applyWindow frame)) as [w|] eqn:Hw.
  - apply allFinite_length in Hw. rewrite applyWindow_length in Hw.
    rewrite forward_cases, Hw.
    destruct (Nat.eqb_spec (length frame) (FFT.size (Detector.fft d))) as [E|E];
      cbn [bind].
    + split; [intros [e H]; discriminate | intros H; contradiction].
    + split; [intros _; exact E | intros _; now exists InputSizeMismatch].
  - rewrite applyWindow_length.
    destruct (Nat.eqb_spec (length frame) (FFT.size (Detector.fft d))) as [E|E];
      cbn [negb].
    + split; [intros [e H]; discriminate | intros H; contradiction].
    + split; [intros _; exact E | intros _; now exists InputSizeMismatch].
Qed.

Lemma frameFeatures_throws_only_mismatch (d : Detector.t) (frame : list R) (e : error) :
  Detector.frameFeatures d frame = Thrown e -> e = InputSizeMismatch.
Proof.
  unfold Detector.frameFeatures.
  destruct (Detector.allFinite (Detector.applyWindow frame)) as [w|].
  - rewrite forward_cases.
    destruct (length w =? FFT.size (Detector.fft d))%nat; cbn [bind]; congruence.
  - destruct (negb _); congruence.
Qed.

(** X10: [extractDFTFeatures] throws exactly when some frame does not have
    the size of the transform, also when a sample is NaN; the error is
    then the size mismatch of [forward]. *)
Theorem extractDFTFeatures_throws_iff (d : Detector.t) (frames : list (list R)) :
  ((exists e, Detector.extractDFTFeatures d frames = Thrown e)
   <-> Exists (fun frame => length frame <> FFT.size (Detector.fft d)) frames)
  /\ (forall e, Detector.extractDFTFeatures d frames = Thrown e ->
                e = InputSizeMismatch).
Proof.
  unfold Detector.extractDFTFeatures.
  induction frames as [|frame frames [IHiff IHerr]].
  - split; [split|].
    + intros [e H]. discriminate.
    + intros H. inversion H.
    + intros e H. discriminate.
  - cbn [Detector.mapThrowing].
    pose proof (frameFeatures_throws_iff d frame) as Hf.
    destruct (Detector.frameFeatures d frame) as [s|e0] eqn:Hs; cbn [bind].
    + assert (Hok : length frame = FFT.size (Detector.fft d)).
      { destruct (Nat.eq_dec (length frame) (FFT.size (Detector.fft d))) as [E|E];
          [exact E|].
        apply Hf in E. destruct E as [e E]. discriminate. }
      destruct (Detector.mapThrowing (Detector.frameFeatures d) frames) as [ss|e1];
        cbn [bind].
      * split; [split|].
        -- intros [e H]. discriminate.
        -- intros H. inversion H as [? ? Hbad|? ? Hbad]; subst; [contradiction|].
           apply IHiff in Hbad. destruct Hbad as [e Hbad]. discriminate.
        -- intros e H. discriminate.
      * split; [split|].
        -- intros _. apply Exists_cons_tl. apply IHiff. now exists e1.
        -- intros _. now exists e1.
        -- intros e H. injection H as <-. now apply IHerr.
    + split; [split|].
      * intros _. apply Exists_cons_hd. apply Hf. now exists e0.
      * intros _. now exists e0.
      * intros e H. injection H as <-.
        now apply (frameFeatures_throws_only_mismatch d frame).
Qed.

(** ** The SNR recursion as exponential smoothing *)

Lemma nextXiBin_smoothing (alpha prevXiJ sigmaNj y : R) :
  0 <= prevXiJ -> 0 <= sigmaNj ->
  Detector.nextXiBin alpha prevXiJ sigmaNj y =
  alpha * prevXiJ
  + (1 - alpha) * Rmax (y ^ 2 / orElse sigmaNj EPSILON - 1) 0.
Proof.
  intros Hp Hs. unfold Detector.nextXiBin.
  pose proof (orElse_EPSILON_pos sigmaNj Hs) as Hpos.
  rewrite pow2_sqrt by (apply Rmult_le_pos; lra).
  f_equal. f_equal. field. lra.
Qed.

(** X11: with a non-negative noise power vector and alpha in (0,1), the
    square root and the square of lines 90-92 cancel: each estimate after
    the first is [alpha] times the previous estimate of the bin plus
    [1 - alpha] times the rectified a-posteriori SNR minus one. *)
Theorem estimatePrioriSNR_is_exponential_smoothing
    (bins : nat) (y : list (list R)) (sigmaN : list R) (alpha : R) :
  y <> [] -> rectangular bins y -> Forall (Rle 0) sigmaN -> 0 < alpha < 1 ->
  exists xi,
    Detector.estimatePrioriSNR y sigmaN alpha = Returned xi
    /\ forall m j, (1 <= m < length y)%nat -> (j < bins)%nat ->
         nth j (nth m xi []) 0 =
         alpha * nth j (nth (m - 1) xi []) 0
         + (1 - alpha)
           * Rmax (nth j (nth m y []) 0 ^ 2 / orElse (nth j sigmaN 0) EPSILON - 1) 0.
Proof.
  intros Hne Hrect Hs Ha.
  destruct (estimatePrioriSNR_bins bins y sigmaN alpha Hne Hrect)
    as (xi & Hret & Hlen & Hxi).
  exists xi. split; [exact Hret|].
  intros m j Hm Hj.
  destruct (Hxi j Hj) as [_ Hstep]. rewrite (Hstep m Hm).
  pose proof (estimatePrioriSNR_nonneg y sigmaN alpha xi Ha Hs Hret) as Hnn.
  assert (Hprev : 0 <= nth j (nth (m - 1) xi []) 0).
  { apply nth_nonneg.
    rewrite Forall_forall in Hnn. apply Hnn. apply nth_In. lia. }
  pose proof (nextXiBin_smoothing alpha _ _ (nth j (nth m y []) 0) Hprev
                (nth_nonneg sigmaN j Hs)) as Hsm.
  unfold Detector.nextXiBin in Hsm. exact Hsm.
Qed.

(** An instance of X11: three spectra of one bin, unit noise power. *)
Lemma estimatePrioriSNR_is_exponential_smoothing_witness :
  exists xi,
    Detector.estimatePrioriSNR [[2]; [3]; [1]] [1] (1 / 2) = Returned xi
    /\ nth 0 (nth 2 xi []) 0 =
       1 / 2 * nth 0 (nth 1 xi []) 0
       + (1 - 1 / 2) * Rmax (1 ^ 2 / orElse 1 EPSILON - 1) 0.
Proof.
  destruct (estimatePrioriSNR_is_exponential_smoothing 1 [[2]; [3]; [1]] [1] (1 / 2))
    as (xi & Hret & Hxi);
    [discriminate | repeat constructor | repeat constructor; lra | lra |].
  exists xi. split; [exact Hret|].
  apply (Hxi 2%nat 0%nat); simpl; lia.
Defined.

(** ** When the noise power of a bin is zero *)




(** ** Frames whose SNR estimate is zero *)

Lemma binLikelihood_zero_snr (sigmaNj y : R) :
  Detector.binLikelihood 0 sigmaNj y = 1.
Proof.
  unfold Detector.binLikelihood.
  rewrite Rmult_0_l. unfold Rdiv.
  rewrite !Rmult_0_l, Rmult_0_r, Rmult_0_l, Rplus_0_r, Rinv_1, exp_0. ring.
Qed.

Lemma avgLogL_zero_snr (frame xiM sigmaN : list R) :
  (forall j, (j < length frame)%nat -> nth j xiM 0 = 0) ->
  Detector.avgLogL frame xiM sigmaN = 0.
Proof.
  intros Hzero. unfold Detector.avgLogL.
  rewrite sumLogL_Rsum, Rsum_zero; [unfold Rdiv; ring|].
  intros j Hj. rewrite (Hzero j Hj), binLikelihood_zero_snr.
  rewrite Rmax_left by (pose proof EPSILON_lt_1; lra).
  apply ln_1.
Qed.

Lemma aboveLogThreshold_zero (threshold : R) :
  0 < threshold < 1 -> Detector.aboveLogThreshold 0 threshold = true.
Proof.
  intros [Hlo Hhi]. apply aboveLogThreshold_true_iff; [exact Hlo|].
  pose proof (ln_increasing threshold 1 Hlo Hhi) as H. rewrite ln_1 in H. lra.
Qed.

(** X13: a frame whose a-priori SNR estimate is zero in every bin gets the
    log-likelihood 0 and is therefore marked as speech for every threshold
    in (0,1), the default 0.5 included, whatever its spectrum and the noise
    power. *)
Theorem decide_zero_snr_frame_is_speech
    (features xi : list (list R)) (sigmaN : list R) (threshold : R) (m : nat) :
  0 < threshold < 1 ->
  (m < length features)%nat ->
  (0 < length (nth m features []))%nat ->
  length (nth m xi []) = length (nth m features []) ->
  length sigmaN = length (nth m features []) ->
  (forall j, (j < length (nth m features []))%nat -> nth j (nth m xi []) 0 = 0) ->
  let d := Detector.decide features xi sigmaN threshold in
  nth m (Detector.logLikelihood d) 0 = 0
  /\ nth m (Detector.speechFrames d) false = true.
Proof.
  intros Ht Hm _ _ _ Hzero d. subst d.
  rewrite decide_logLikelihood, decide_speechFrames.
  rewrite !nth_map_seq by exact Hm.
  rewrite avgLogL_zero_snr by exact Hzero.
  split; [reflexivity | now apply aboveLogThreshold_zero].
Qed.

(** An instance of X13: one frame of two bins, default threshold. *)
Lemma decide_zero_snr_frame_is_speech_witness :
  let d := Detector.decide [[3; 4]] [[0; 0]] [1; 1] 0.5 in
  nth 0 (Detector.logLikelihood d) 0 = 0
  /\ nth 0 (Detector.speechFrames d) false = true.
Proof.
  apply (decide_zero_snr_frame_is_speech [[3; 4]] [[0; 0]] [1; 1] 0.5 0);
    try reflexivity; try (simpl; lia); try lra.
  intros [|[|j]] Hj; simpl in *; try lia; reflexivity.
Defined.

(** The noise power of rectangular spectra, when at least one is used. *)
Lemma estimateNoiseVariance_mean_of_squares_aux
    (bins : nat) (features : list (list R)) (nNoiseFrames : nat) :
  rectangular bins features ->
  Nat.min nNoiseFrames (length features) <> 0%nat ->
  exists sigmaN,
    Detector.estimateNoiseVariance features nNoiseFrames = Returned sigmaN
    /\ length sigmaN = bins
    /\ forall j, (j < bins)%nat ->
         nth j sigmaN 0 =
         mean (map (fun spectrum => nth j spectrum 0 ^ 2)
                   (firstn (Nat.min nNoiseFrames (length features)) features)).
Proof.
  intros Hrect Hk. unfold Detector.estimateNoiseVariance.
  replace (Nat.min (length features) nNoiseFrames)
    with (Nat.min nNoiseFrames (length features)) by lia.
  set (k := Nat.min nNoiseFrames (length features)) in *.
  destruct (k =? 0)%nat eqn:E; [apply Nat.eqb_eq in E; contradiction|].
  eexists. split; [reflexivity|].
  assert (Hfirst : length (nth 0 features []) = bins).
  { apply rectangular_nth; [exact Hrect | unfold k in Hk; lia]. }
  destruct (accumulated_frames features k (repeat 0 (length (nth 0 features []))))
    as [Hlen Hnth].
  rewrite repeat_length in Hlen, Hnth.
  split; [now rewrite length_map, Hlen|].
  intros j Hj.
  rewrite (nth_indep _ 0 (0 / INR k)) by (rewrite length_map, Hlen, Hfirst; exact Hj).
  rewrite (map_nth (fun v => v / INR k)).
  rewrite Hnth by (rewrite Hfirst; exact Hj).
  rewrite nth_repeat_zero, Rplus_0_l.
  unfold mean. rewrite length_map, length_firstn.
  replace (Nat.min k (length features)) with k by (unfold k; lia).
  f_equal.
  apply (Rsum_firstn features (fun spectrum => nth j spectrum 0 ^ 2)).
  unfold k; lia.
Qed.

Lemma initialXi_of_own_power (y : R) :
  Rmax (y ^ 2 / orElse (y ^ 2 / INR 1) EPSILON - 1) 0 = 0.
Proof.
  replace (y ^ 2 / INR 1) with (y ^ 2) by (simpl; field).
  destruct (Req_dec_T (y ^ 2) 0) as [E|E].
  - rewrite E, orElse_zero. pose proof EPSILON_pos.
    replace (0 / EPSILON - 1) with (-1) by (field; lra).
    apply Rmax_right. lra.
  - rewrite orElse_nonzero by exact E.
    replace (y ^ 2 / y ^ 2 - 1) with 0 by (field; intros ->; apply E; ring).
    apply Rmax_right. lra.
Qed.

(** X14: when the detection runs on a single spectrum, the noise power is
    the power of that spectrum, the SNR estimate is zero, and the frame is
    marked as speech with log-likelihood 0, for every threshold in (0,1) and
    whatever the spectrum holds. *)
Theorem detectFromFeatures_single_frame_is_speech (spectrum : list R) (threshold : R) :
  spectrum <> [] -> 0 < threshold < 1 ->
  Detector.detectFromFeatures [spectrum] (Some threshold)
  = Returned {| Detector.speechFrames := [true]; Detector.logLikelihood := [0] |}.
Proof.
  intros Hne Ht. unfold Detector.detectFromFeatures, Detector.defaultNoiseFrames.
  destruct (estimateNoiseVariance_mean_of_squares_aux (length spectrum) [spectrum] 10)
    as (sigmaN & Hs & Hlen & Hbins); [repeat constructor | simpl; lia |].
  rewrite Hs. cbn [bind].
  unfold Detector.estimatePrioriSNR. cbn [length Nat.sub seq fold_left bind].
  unfold Detector.decide. cbn [length seq fold_left].
  unfold Detector.decideStep.
  cbn [Detector.speechFrames Detector.logLikelihood app nth].
  rewrite avgLogL_zero_snr.
  - now rewrite aboveLogThreshold_zero.
  - intros j Hj. rewrite initialXi_nth by exact Hj.
    rewrite (Hbins j Hj). unfold mean.
    change (firstn (Nat.min 10 (length [spectrum])) [spectrum]) with [spectrum].
    cbn [map fold_right length].
    rewrite Rplus_0_r. apply initialXi_of_own_power.
Qed.

(** An instance of X14: a spectrum of two bins, the default threshold. *)
Lemma detectFromFeatures_single_frame_is_speech_witness :
  Detector.detectFromFeatures [[3; 4]] (Some 0.5)
  = Returned {| Detector.speechFrames := [true]; Detector.logLikelihood := [0] |}.
Proof.
  apply detectFromFeatures_single_frame_is_speech; [discriminate | lra].
Defined.

(** ** The floor of the log-likelihood *)






(** ** The whole detection *)

(** From spectra to the decision: one entry per spectrum, and an error
    exactly when there is no spectrum. *)
Lemma detectFromFeatures_cases (features : list (list R)) (threshold : option R) :
  match Detector.detectFromFeatures features threshold with
  | Returned r =>
      features <> []
      /\ length (Detector.speechFrames r) = length features
      /\ length (Detector.logLikelihood r) = length features
  | Thrown e => features = [] /\ e = NotEnoughFrames
  end.
Proof.
  unfold Detector.detectFromFeatures, Detector.estimateNoiseVariance,
    Detector.defaultNoiseFrames.
  destruct features as [|first rest].
  - simpl. split; reflexivity.
  - change (Nat.min (length (first :: rest)) 10 =? 0)%nat with false.
    cbn [bind Detector.estimatePrioriSNR].
    rewrite decide_speechFrames, decide_logLikelihood, !length_map, !length_seq.
    split; [discriminate | split; reflexivity].
Qed.

(** The shape of a resolved detection. *)
Lemma detectSpeech_resolved_shape
    (fuel : nat) (d : Detector.t) (file : Detector.File) (threshold : option R)
    (r : Detector.decision) :
  Detector.detectSpeech fuel d file threshold = Detector.Resolved r ->
  length (Detector.speechFrames r) = length (Detector.logLikelihood r)
  /\ (0 < length (Detector.speechFrames r))%nat.
Proof.
  unfold Detector.detectSpeech.
  destruct (negb _); [discriminate|].
  destruct (Detector.getAudioData file) as [audio| | |]; try discriminate.
  destruct (Detector.frameSignal fuel d audio) as [[frames|e]|]; try discriminate.
  destruct (Detector.extractDFTFeatures d frames) as [spectra|e]; try discriminate.
  destruct (Detector.allFinite spectra) as [features|]; try discriminate.
  pose proof (detectFromFeatures_cases features threshold) as Hcases.
  destruct (Detector.detectFromFeatures features threshold) as [r'|e]; try discriminate.
  intros H. injection H as <-.
  destruct Hcases as (Hne & Hs & Hl).
  split; [congruence|].
  rewrite Hs. destruct features; [contradiction | simpl; lia].
Qed.

(** X16: whenever [detectSpeech] resolves, its two lists have the same
    length and are not empty, whatever the detector, the file, the fuel and
    the threshold. *)
Theorem detectSpeech_result_is_nonempty
    (fuel : nat) (d : Detector.t) (file : Detector.File) (threshold : option R)
    (r : Detector.decision) :
  Detector.detectSpeech fuel d file threshold = Detector.Resolved r ->
  length (Detector.speechFrames r) = length (Detector.logLikelihood r)
  /\ (0 < length (Detector.speechFrames r))%nat.
Proof.
  exact (detectSpeech_resolved_shape fuel d file threshold r).
Qed.

(** The detection on audio longer than one frame, with a positive hop. *)
Lemma detectSpeech_resolves
    (fuel : nat) (d : Detector.t) (file : Detector.File) (audio : list R)
    (threshold : option R) :
  Detector.Mime.isAudio (Detector.type file) = true ->
  Detector.channelData file = Some audio ->
  FFT.size (Detector.fft d) = Detector.frameLength d ->
  (2 <= Detector.frameLength d)%nat ->
  (0 < Detector.hopLength d)%nat ->
  (Detector.frameLength d < length audio)%nat ->
  (length audio - Detector.frameLength d < fuel)%nat ->
  exists r,
    Detector.detectSpeech fuel d file threshold = Detector.Resolved r
    /\ length (Detector.logLikelihood r) = length (Detector.speechFrames r)
    /\ forall k, (k < length (Detector.speechFrames r))%nat <->
                 (k * Detector.hopLength d
                  < length audio - Detector.frameLength d)%nat.
Proof.
  intros Htype Hdata Hsize HF Hh HL Hfuel.
  unfold Detector.detectSpeech, Detector.getAudioData.
  rewrite Htype, Hdata. cbn [negb].
  rewrite frameSignal_frames by lia.
  set (frames := map _ (seq 0 _)).
  assert (Hall : Forall (fun frame => length frame = Detector.frameLength d) frames).
  { apply Forall_forall. intros frame Hin.
    apply in_map_iff in Hin. destruct Hin as (k & <- & Hk).
    apply in_seq in Hk.
    assert (Hlt : (k < offsetsBelow (length audio - Detector.frameLength d)
                                    (Detector.hopLength d) 0)%nat) by lia.
    apply offsetsBelow_lt_iff in Hlt; [|exact Hh].
    rewrite slice_length by lia. lia. }
  destruct (extractDFTFeatures_good_frames d frames Hsize HF Hall)
    as (spectra & Hret & Hcount & _).
  rewrite Hret, allFinite_map_Some.
  pose proof (detectFromFeatures_cases spectra threshold) as Hcases.
  assert (Hframes : length frames
                    = offsetsBelow (length audio - Detector.frameLength d)
                                   (Detector.hopLength d) 0).
  { unfold frames. now rewrite length_map, length_seq. }
  destruct (Detector.detectFromFeatures spectra threshold) as [r|e].
  - destruct Hcases as (_ & Hs & Hl).
    exists r. split; [reflexivity|]. split; [congruence|].
    intros k. rewrite Hs, Hcount, Hframes. now apply offsetsBelow_lt_iff.
  - exfalso. destruct Hcases as [Hnil _].
    assert (H0 : (0 < length frames)%nat).
    { rewrite Hframes. apply offsetsBelow_lt_iff; [exact Hh | lia]. }
    rewrite Hnil in Hcount. simpl in Hcount. lia.
Qed.

(** A file of type [audio/] that decodes to [audio]. *)
Lemma audio_file_is_audio (audio : list R) :
  Detector.Mime.isAudio
    (Detector.type {| Detector.type := Detector.Mime.audioPrefix;
                      Detector.channelData := Some audio |}) = true.
Proof. vm_compute. reflexivity. Qed.

(** An instance of X16: frame length 2, hop 1, three samples. *)
Lemma detectSpeech_result_is_nonempty_witness :
  exists d r,
    Detector.new 2 1 16000 = Returned d
    /\ Detector.detectSpeech 2 d
         {| Detector.type := Detector.Mime.audioPrefix;
            Detector.channelData := Some [1; 2; 3] |} None
       = Detector.Resolved r
    /\ (0 < length (Detector.speechFrames r))%nat.
Proof.
  eexists.
  destruct (detectSpeech_resolves 2
              {| Detector.frameLength := 2; Detector.hopLength := 1;
                 Detector.sampleRate := 16000;
                 Detector.fft := {| FFT.size := 2;
                                    FFT.cosTable := map (fun i => cos (2 * PI * INR i / INR 2))
                                                        (seq 0 2);
                                    FFT.sinTable := map (fun i => sin (2 * PI * INR i / INR 2))
                                                        (seq 0 2) |} |}
              {| Detector.type := Detector.Mime.audioPrefix;
                 Detector.channelData := Some [1; 2; 3] |}
              [1; 2; 3] None)
    as (r & Hr & _);
    [apply audio_file_is_audio | reflexivity | reflexivity
    | simpl; lia | simpl; lia | simpl; lia | simpl; lia |].
  exists r. split; [reflexivity|]. split; [exact Hr|].
  exact (proj2 (detectSpeech_result_is_nonempty _ _ _ _ _ Hr)).
Defined.

(** X17: for a detector whose transform has the size of its frames (two
    samples or more) and whose hop is positive, [detectSpeech] on an audio
    file longer than one frame resolves, given fuel for every offset, with
    one decision and one log-likelihood per frame offset [k * hop] strictly
    below [L - F]. *)
Theorem detectSpeech_one_entry_per_frame
    (fuel : nat) (d : Detector.t) (file : Detector.File) (audio : list R)
    (threshold : option R) :
  Detector.Mime.isAudio (Detector.type file) = true ->
  Detector.channelData file = Some audio ->
  FFT.size (Detector.fft d) = Detector.frameLength d ->
  (2 <= Detector.frameLength d)%nat ->
  (0 < Detector.hopLength d)%nat ->
  (Detector.frameLength d < length audio)%nat ->
  (length audio - Detector.frameLength d < fuel)%nat ->
  exists r,
    Detector.detectSpeech fuel d file threshold = Detector.Resolved r
    /\ length (Detector.logLikelihood r) = length (Detector.speechFrames r)
    /\ forall k, (k < length (Detector.speechFrames r))%nat <->
                 (k * Detector.hopLength d
                  < length audio - Detector.frameLength d)%nat.
Proof.
  exact (detectSpeech_resolves fuel d file audio threshold).
Qed.

(** An instance of X17: frame length 2, hop 1, four samples, two frames. *)
Lemma detectSpeech_one_entry_per_frame_witness :
  exists d r,
    Detector.new 2 1 16000 = Returned d
    /\ Detector.detectSpeech 3 d
         {| Detector.type := Detector.Mime.audioPrefix;
            Detector.channelData := Some [1; 2; 3; 4] |} None
       = Detector.Resolved r
    /\ forall k, (k < length (Detector.speechFrames r))%nat <-> (k * 1 < 2)%nat.
Proof.
  eexists.
  destruct (detectSpeech_one_entry_per_frame 3
              {| Detector.frameLength := 2; Detector.hopLength := 1;
                 Detector.sampleRate := 16000;
                 Detector.fft := {| FFT.size := 2;
                                    FFT.cosTable := map (fun i => cos (2 * PI * INR i / INR 2))
                                                        (seq 0 2);
                                    FFT.sinTable := map (fun i => sin (2 * PI * INR i / INR 2))
                                                        (seq 0 2) |} |}
              {| Detector.type := Detector.Mime.audioPrefix;
                 Detector.channelData := Some [1; 2; 3; 4] |}
              [1; 2; 3; 4] None)
    as (r & Hr & _ & Hcount);
    [apply audio_file_is_audio | reflexivity | reflexivity
    | simpl; lia | simpl; lia | simpl; lia | simpl; lia |].
  exists r. split; [reflexivity|]. split; [exact Hr | exact Hcount].
Defined.

(** X18: on an audio file that decodes to fewer samples than one frame,
    [detectSpeech] is rejected as too short; on one that decodes to exactly
    one frame length it passes that test, gets no frame from the framing
    loop, and is rejected by the noise estimator for lack of frames. *)
Theorem detectSpeech_rejects_up_to_one_frame
    (fuel : nat) (d : Detector.t) (file : Detector.File) (audio : list R)
    (threshold : option R) :
  Detector.Mime.isAudio (Detector.type file) = true ->
  Detector.channelData file = Some audio ->
  (length audio <= Detector.frameLength d)%nat ->
  Detector.detectSpeech (S fuel) d file threshold =
  Detector.Rejected
    (Detector.Pipeline (if (length audio <? Detector.frameLength d)%nat
                        then AudioTooShort else NotEnoughFrames)).
Proof.
  intros Htype Hdata HL.
  unfold Detector.detectSpeech, Detector.getAudioData.
  rewrite Htype, Hdata. cbn [negb].
  destruct (length audio <? Detector.frameLength d)%nat eqn:E.
  - unfold Detector.frameSignal. now rewrite E.
  - apply Nat.ltb_ge in E.
    rewrite frameSignal_exact_length by lia.
    reflexivity.
Qed.

(** An instance of X18: frame length 2 and two samples. *)
Lemma detectSpeech_rejects_up_to_one_frame_witness :
  exists d,
    Detector.new 2 1 16000 = Returned d
    /\ Detector.detectSpeech 1 d
         {| Detector.type := Detector.Mime.audioPrefix;
            Detector.channelData := Some [1; 2] |} None
       = Detector.Rejected (Detector.Pipeline NotEnoughFrames).
Proof.
  eexists. split; [reflexivity|].
  rewrite (detectSpeech_rejects_up_to_one_frame 0 _ _ [1; 2] None
             (audio_file_is_audio _) eq_refl) by (simpl; lia).
  reflexivity.
Defined.

(** ** The page *)

Lemma filter_length_le {A : Type} (f : A -> bool) (l : list A) :
  (length (filter f l) <= length l)%nat.
Proof.
  induction l as [|a l IH]; simpl; [lia|].
  destruct (f a); simpl; lia.
Qed.

Lemma speechPercentage_nonempty (speechFrames : list bool) :
  (0 < length speechFrames)%nat ->
  exists p,
    App.speechPercentage speechFrames = Some p
    /\ p = INR (length (filter (fun b => b) speechFrames))
           / INR (length speechFrames) * 100
    /\ 0 <= p <= 100.
Proof.
  intros Hne. unfold App.speechPercentage, jsdiv.
  assert (Hn : 0 < INR (length speechFrames)) by (now apply lt_0_INR).
  destruct (Req_dec_T (INR (length speechFrames)) 0) as [E|E]; [lra|].
  eexists. split; [reflexivity|]. split; [reflexivity|].
  pose proof (filter_length_le (fun b : bool => b) speechFrames) as Hle.
  apply le_INR in Hle.
  pose proof (pos_INR (length (filter (fun b : bool => b) speechFrames))) as Hpos.
  assert (Hq : 0 <= INR (length (filter (fun b : bool => b) speechFrames))
                    / INR (length speechFrames) <= 1).
  { split.
    - apply Rmult_le_pos; [exact Hpos | apply Rlt_le, Rinv_0_lt_compat, Hn].
    - apply (Rmult_le_reg_r (INR (length speechFrames))); [exact Hn|].
      unfold Rdiv. rewrite Rmult_assoc, Rinv_l, Rmult_1_r, Rmult_1_l by lra.
      exact Hle. }
  lra.
Qed.

(** X19: whenever [detectSpeech] resolves, the speech percentage that the
    page computes from it is a number, not the NaN of [0 / 0], and lies
    between 0 and 100. *)
Theorem speechPercentage_of_detection_in_range
    (fuel : nat) (d : Detector.t) (file : Detector.File) (threshold : option R)
    (r : Detector.decision) :
  Detector.detectSpeech fuel d file threshold = Detector.Resolved r ->
  exists p,
    App.speechPercentage (Detector.speechFrames r) = Some p /\ 0 <= p <= 100.
Proof.
  intros Hr.
  destruct (detectSpeech_resolved_shape fuel d file threshold r Hr) as [_ Hne].
  destruct (speechPercentage_nonempty _ Hne) as (p & Hp & _ & Hrange).
  now exists p.
Qed.

(** An instance of X19: frame length 2, hop 1, three samples. *)
Lemma speechPercentage_of_detection_in_range_witness :
  exists d r p,
    Detector.new 2 1 16000 = Returned d
    /\ Detector.detectSpeech 2 d
         {| Detector.type := Detector.Mime.audioPrefix;
            Detector.channelData := Some [1; 2; 3] |} None
       = Detector.Resolved r
    /\ App.speechPercentage (Detector.speechFrames r) = Some p.
Proof.
  eexists.
  destruct (detectSpeech_resolves 2
              {| Detector.frameLength := 2; Detector.hopLength := 1;
                 Detector.sampleRate := 16000;
                 Detector.fft := {| FFT.size := 2;
                                    FFT.cosTable := map (fun i => cos (2 * PI * INR i / INR 2))
                                                        (seq 0 2);
                                    FFT.sinTable := map (fun i => sin (2 * PI * INR i / INR 2))
                                                        (seq 0 2) |} |}
              {| Detector.type := Detector.Mime.audioPrefix;
                 Detector.channelData := Some [1; 2; 3] |}
              [1; 2; 3] None)
    as (r & Hr & _);
    [apply audio_file_is_audio | reflexivity | reflexivity
    | simpl; lia | simpl; lia | simpl; lia | simpl; lia |].
  destruct (speechPercentage_of_detection_in_range _ _ _ _ _ Hr) as (p & Hp & _).
  exists r, p. split; [reflexivity|]. split; [exact Hr | exact Hp].
Defined.

Lemma filter_true_pointwise {A : Type} (f g : A -> bool) (l : list A) :
  (forall x, g x = true -> f x = true) ->
  (length (filter (fun b : bool => b) (map g l))
   <= length (filter (fun b : bool => b) (map f l)))%nat.
Proof.
  intros Hfg. induction l as [|x l IH]; simpl; [lia|].
  destruct (g x) eqn:Eg.
  - rewrite (Hfg x Eg). simpl. lia.
  - destruct (f x); simpl; lia.
Qed.

(** X20: for fixed spectra, SNR estimates and noise power, with at least
    one frame, raising the threshold from [t1] to [t2] (both positive)
    never raises the speech percentage shown by the page. *)
Theorem speechPercentage_antitone_in_threshold
    (features xi : list (list R)) (sigmaN : list R) (t1 t2 : R) :
  features <> [] -> 0 < t1 <= t2 ->
  exists p1 p2,
    App.speechPercentage
      (Detector.speechFrames (Detector.decide features xi sigmaN t1)) = Some p1
    /\ App.speechPercentage
         (Detector.speechFrames (Detector.decide features xi sigmaN t2)) = Some p2
    /\ p2 <= p1.
Proof.
  intros Hne Ht.
  assert (Hlen : (0 < length features)%nat)
    by (destruct features; [contradiction | simpl; lia]).
  rewrite !decide_speechFrames.
  set (avg := fun m => Detector.avgLogL (nth m features []) (nth m xi []) sigmaN).
  set (s1 := map (fun m => Detector.aboveLogThreshold (avg m) t1) (seq 0 (length features))).
  set (s2 := map (fun m => Detector.aboveLogThreshold (avg m) t2) (seq 0 (length features))).
  assert (H1 : (0 < length s1)%nat) by (unfold s1; now rewrite length_map, length_seq).
  assert (H2 : (0 < length s2)%nat) by (unfold s2; now rewrite length_map, length_seq).
  destruct (speechPercentage_nonempty s1 H1) as (p1 & Hp1 & E1 & _).
  destruct (speechPercentage_nonempty s2 H2) as (p2 & Hp2 & E2 & _).
  exists p1, p2. split; [exact Hp1|]. split; [exact Hp2|].
  subst p1 p2.
  assert (Hsame : length s2 = length s1)
    by (unfold s1, s2; now rewrite !length_map).
  rewrite Hsame.
  assert (Hcount : (length (filter (fun b : bool => b) s2)
                    <= length (filter (fun b : bool => b) s1))%nat).
  { apply filter_true_pointwise. intros m. now apply aboveLogThreshold_antitone. }
  apply le_INR in Hcount.
  assert (Hn : 0 < / INR (length s1)) by (apply Rinv_0_lt_compat, lt_0_INR, H1).
  unfold Rdiv. nra.
Qed.

(** An instance of X20: one frame, thresholds 0.5 and 0.9. *)
Lemma speechPercentage_antitone_in_threshold_witness :
  exists p1 p2,
    App.speechPercentage
      (Detector.speechFrames (Detector.decide [[1]] [[0]] [1] 0.5)) = Some p1
    /\ App.speechPercentage
         (Detector.speechFrames (Detector.decide [[1]] [[0]] [1] 0.9)) = Some p2
    /\ p2 <= p1.
Proof.
  apply speechPercentage_antitone_in_threshold; [discriminate | lra].
Defined.

(** X21: the chart built from a resolved detection has the labels
    [0 .. n-1] and two series of exactly [n] points each, and every point
    of the speech series is 0 or 1, inside the fixed range of the y axis. *)
Theorem createChartData_of_detection
    (fuel : nat) (d : Detector.t) (file : Detector.File) (threshold : option R)
    (r : Detector.decision) :
  Detector.detectSpeech fuel d file threshold = Detector.Resolved r ->
  exists c,
    App.createChartData (Some r) = Some c
    /\ App.labels c = seq 0 (length (Detector.speechFrames r))
    /\ length (App.logLikelihoodData c) = length (App.labels c)
    /\ length (App.speechData c) = length (App.labels c)
    /\ Forall (fun v => (v = 0 \/ v = 1) /\ App.yMin <= v <= App.yMax) (App.speechData c).
Proof.
  intros Hr.
  destruct (detectSpeech_resolved_shape fuel d file threshold r Hr) as [Hsame _].
  eexists. split; [reflexivity|]. cbn [App.labels App.logLikelihoodData App.speechData].
  rewrite length_seq, length_map, Hsame.
  repeat split; try reflexivity.
  apply Forall_forall. intros v Hv.
  apply in_map_iff in Hv. destruct Hv as (b & <- & _).
  unfold App.yMin, App.yMax. destruct b; split; auto; lra.
Qed.

(** An instance of X21: frame length 2, hop 1, three samples. *)
Lemma createChartData_of_detection_witness :
  exists d r c,
    Detector.new 2 1 16000 = Returned d
    /\ Detector.detectSpeech 2 d
         {| Detector.type := Detector.Mime.audioPrefix;
            Detector.channelData := Some [1; 2; 3] |} None
       = Detector.Resolved r
    /\ App.createChartData (Some r) = Some c
    /\ length (App.speechData c) = length (App.labels c).
Proof.
  eexists.
  destruct (detectSpeech_resolves 2
              {| Detector.frameLength := 2; Detector.hopLength := 1;
                 Detector.sampleRate := 16000;
                 Detector.fft := {| FFT.size := 2;
                                    FFT.cosTable := map (fun i => cos (2 * PI * INR i / INR 2))
                                                        (seq 0 2);
                                    FFT.sinTable := map (fun i => sin (2 * PI * INR i / INR 2))
                                                        (seq 0 2) |} |}
              {| Detector.type := Detector.Mime.audioPrefix;
                 Detector.channelData := Some [1; 2; 3] |}
              [1; 2; 3] None)
    as (r & Hr & _);
    [apply audio_file_is_audio | reflexivity | reflexivity
    | simpl; lia | simpl; lia | simpl; lia | simpl; lia |].
  destruct (createChartData_of_detection _ _ _ _ _ Hr) as (c & Hc & _ & _ & Hlen & _).
  exists r, c. split; [reflexivity|]. split; [exact Hr|]. split; [exact Hc | exact Hlen].
Defined.

(** ** Gain *)

Lemma nth_scale (c : R) (v : list R) (j : nat) :
  nth j (map (Rmult c) v) 0 = c * nth j v 0.
Proof.
  revert j. induction v as [|a v IH]; intros [|j]; simpl; auto; ring.
Qed.

Lemma nth_scale_rows (c : R) (vs : list (list R)) (i : nat) :
  nth i (map (map (Rmult c)) vs) [] = map (Rmult c) (nth i vs []).
Proof.
  change (@nil R) with (map (Rmult c) []) at 1. apply map_nth.
Qed.

Lemma Rsum_scale (c : R) (n : nat) (f : nat -> R) :
  Rsum n (fun j => c * f j) = c * Rsum n f.
Proof.
  induction n as [|n IH]; cbn [Rsum]; [ring | rewrite IH; ring].
Qed.

Lemma rectangular_scale (c : R) (bins : nat) (vs : list (list R)) :
  rectangular bins vs -> rectangular bins (map (map (Rmult c)) vs).
Proof.
  unfold rectangular. intros H. apply Forall_map.
  eapply Forall_impl; [|exact H]. intros v Hv. now rewrite length_map.
Qed.

(** The noise power of rectangular spectra as a sum over the frames. *)
Lemma estimateNoiseVariance_bins
    (bins : nat) (features : list (list R)) (nNoiseFrames : nat) (sigmaN : list R) :
  rectangular bins features ->
  Detector.estimateNoiseVariance features nNoiseFrames = Returned sigmaN ->
  let k := Nat.min (length features) nNoiseFrames in
  k <> 0%nat /\ length sigmaN = bins
  /\ forall j, (j < bins)%nat ->
       nth j sigmaN 0 = Rsum k (fun i => nth j (nth i features []) 0 ^ 2) / INR k.
Proof.
  intros Hrect. unfold Detector.estimateNoiseVariance.
  set (k := Nat.min (length features) nNoiseFrames).
  destruct (k =? 0)%nat eqn:E; [discriminate|].
  apply Nat.eqb_neq in E.
  intros H. injection H as <-. cbv zeta.
  assert (Hfirst : length (nth 0 features []) = bins).
  { apply rectangular_nth; [exact Hrect | unfold k in E; lia]. }
  destruct (accumulated_frames features k (repeat 0 (length (nth 0 features []))))
    as [Hlen Hnth].
  rewrite repeat_length in Hlen, Hnth.
  split; [exact E|]. split; [now rewrite length_map, Hlen|].
  intros j Hj.
  rewrite (nth_indep _ 0 (0 / INR k)) by (rewrite length_map, Hlen, Hfirst; exact Hj).
  rewrite (map_nth (fun v => v / INR k)).
  rewrite Hnth by (rewrite Hfirst; exact Hj).
  now rewrite nth_repeat_zero, Rplus_0_l.
Qed.

(** Spectra scaled by [c] have the noise power scaled by [c * c]. *)
Lemma estimateNoiseVariance_scale
    (bins : nat) (features : list (list R)) (nNoiseFrames : nat) (sigmaN : list R) (c : R) :
  rectangular bins features ->
  Detector.estimateNoiseVariance features nNoiseFrames = Returned sigmaN ->
  Detector.estimateNoiseVariance (map (map (Rmult c)) features) nNoiseFrames
  = Returned (map (Rmult (c * c)) sigmaN).
Proof.
  intros Hrect Hs.
  destruct (estimateNoiseVariance_bins bins features nNoiseFrames sigmaN Hrect Hs)
    as (Hk & Hlen & Hbins).
  destruct (Detector.estimateNoiseVariance (map (map (Rmult c)) features) nNoiseFrames)
    as [sigmaN'|e] eqn:Hs'.
  - destruct (estimateNoiseVariance_bins bins _ nNoiseFrames sigmaN'
                (rectangular_scale c bins features Hrect) Hs')
      as (_ & Hlen' & Hbins').
    f_equal. apply (nth_ext _ _ 0 0).
    + now rewrite length_map, Hlen, Hlen'.
    + intros j Hj. rewrite Hlen' in Hj.
      rewrite Hbins', nth_scale, Hbins by exact Hj.
      rewrite length_map.
      rewrite (Rsum_ext _ _ (fun i => (c * c) * nth j (nth i features []) 0 ^ 2)).
      * rewrite Rsum_scale. unfold Rdiv. ring.
      * intros i _. rewrite nth_scale_rows, nth_scale. ring.
  - exfalso. unfold Detector.estimateNoiseVariance in Hs'.
    rewrite length_map in Hs'.
    apply Nat.eqb_neq in Hk. rewrite Hk in Hs'. discriminate.
Qed.

Lemma gamma_scale (c s y : R) :
  c <> 0 -> s <> 0 ->
  (c * y) ^ 2 / orElse (c * c * s) EPSILON = y ^ 2 / orElse s EPSILON.
Proof.
  intros Hc Hs.
  rewrite !orElse_nonzero; [field; split; assumption | exact Hs |].
  apply Rmult_integral_contrapositive_currified; [|exact Hs].
  now apply Rmult_integral_contrapositive_currified.
Qed.

Lemma nextXiBin_scale (alpha prevXiJ c s y : R) :
  0 < c -> 0 < s -> 0 <= prevXiJ ->
  Detector.nextXiBin alpha prevXiJ (c * c * s) (c * y)
  = Detector.nextXiBin alpha prevXiJ s y.
Proof.
  intros Hc Hs Hp.
  assert (Hccs : 0 < c * c * s) by (apply Rmult_lt_0_compat; nra).
  rewrite !nextXiBin_smoothing by lra.
  now rewrite gamma_scale by lra.
Qed.

Lemma binLikelihood_scale (xiMJ c s y : R) :
  c <> 0 -> s <> 0 ->
  Detector.binLikelihood xiMJ (c * c * s) (c * y) = Detector.binLikelihood xiMJ s y.
Proof.
  intros Hc Hs. unfold Detector.binLikelihood.
  rewrite gamma_scale by assumption.
  assert (Hccs : c * c * s <> 0).
  { apply Rmult_integral_contrapositive_currified; [|exact Hs].
    now apply Rmult_integral_contrapositive_currified. }
  replace (xiMJ * (c * c * s) / orElse (c * c * s) EPSILON)
    with (xiMJ * s / orElse s EPSILON); [reflexivity|].
  rewrite !orElse_nonzero by assumption. field. split; assumption.
Qed.

Lemma initialXi_length (first sigmaN : list R) :
  length (Detector.initialXi first sigmaN) = length first.
Proof.
  unfold Detector.initialXi, mapi. now rewrite length_map, mapi_from_length.
Qed.

(** Scaling the spectra by [c > 0] and the noise power by [c * c] leaves
    the SNR estimates as they are, when no bin of the noise power is zero. *)
Lemma estimatePrioriSNR_scale
    (bins : nat) (features : list (list R)) (sigmaN : list R) (alpha c : R) :
  rectangular bins features -> Forall (Rle 0) sigmaN ->
  (forall j, (j < bins)%nat -> nth j sigmaN 0 <> 0) ->
  0 < alpha < 1 -> 0 < c ->
  Detector.estimatePrioriSNR (map (map (Rmult c)) features)
                             (map (Rmult (c * c)) sigmaN) alpha
  = Detector.estimatePrioriSNR features sigmaN alpha.
Proof.
  intros Hrect Hnn Hnz Ha Hc.
  destruct features as [|first rest]; [reflexivity|].
  destruct (estimatePrioriSNR_recursion (first :: rest) sigmaN alpha first rest eq_refl)
    as (xi & Hret & Hlen & H0 & Hm).
  destruct (estimatePrioriSNR_recursion
              (map (map (Rmult c)) (first :: rest)) (map (Rmult (c * c)) sigmaN) alpha
              (map (Rmult c) first) (map (map (Rmult c)) rest) eq_refl)
    as (xi' & Hret' & Hlen' & H0' & Hm').
  rewrite Hret, Hret'. f_equal.
  pose proof (estimatePrioriSNR_nonneg _ _ _ _ Ha Hnn Hret) as Hxinn.
  rewrite length_map in Hlen', Hm'.
  assert (Hrows : forall m, (m < length (first :: rest))%nat ->
                            nth m xi' [] = nth m xi []).
  { induction m as [|m IHm]; intros Hlt.
    - rewrite H0, H0'.
      apply (nth_ext _ _ 0 0); [now rewrite !initialXi_length, length_map|].
      intros j Hj. rewrite initialXi_length, length_map in Hj.
      assert (Hjb : (j < bins)%nat)
        by (now rewrite <- (rectangular_nth bins (first :: rest) 0 Hrect) by (simpl; lia)).
      rewrite !initialXi_nth by (rewrite ?length_map; exact Hj).
      rewrite !nth_scale, gamma_scale; [reflexivity | lra | now apply Hnz].
    - rewrite Hm, Hm' by lia.
      replace (S m - 1)%nat with m by lia.
      rewrite IHm by lia.
      rewrite nth_scale_rows, length_map.
      apply map_ext_in. intros j Hj. apply in_seq in Hj.
      assert (Hjb : (j < bins)%nat)
        by (rewrite <- (rectangular_nth bins (first :: rest) (S m) Hrect) by lia; lia).
      rewrite !nth_scale.
      apply nextXiBin_scale; [exact Hc | |].
      + pose proof (nth_nonneg sigmaN j Hnn). pose proof (Hnz j Hjb). lra.
      + apply nth_nonneg. rewrite Forall_forall in Hxinn.
        apply Hxinn, nth_In. lia. }
  apply (nth_ext _ _ [] []); [congruence|].
  intros m Hlt. apply Hrows. congruence.
Qed.

Lemma decision_eq (d d' : Detector.decision) :
  Detector.speechFrames d = Detector.speechFrames d' ->
  Detector.logLikelihood d = Detector.logLikelihood d' -> d = d'.
Proof.
  destruct d, d'. simpl. now intros -> ->.
Qed.

(** Nor does that scaling change the decision step. *)
Lemma decide_scale
    (bins : nat) (features xi : list (list R)) (sigmaN : list R) (threshold c : R) :
  rectangular bins features ->
  (forall j, (j < bins)%nat -> nth j sigmaN 0 <> 0) -> c <> 0 ->
  Detector.decide (map (map (Rmult c)) features) xi (map (Rmult (c * c)) sigmaN) threshold
  = Detector.decide features xi sigmaN threshold.
Proof.
  intros Hrect Hnz Hc.
  assert (Havg : forall m, In m (seq 0 (length features)) ->
            Detector.avgLogL (nth m (map (map (Rmult c)) features) []) (nth m xi [])
                             (map (Rmult (c * c)) sigmaN)
            = Detector.avgLogL (nth m features []) (nth m xi []) sigmaN).
  { intros m Hin. apply in_seq in Hin.
    unfold Detector.avgLogL. rewrite !sumLogL_Rsum, nth_scale_rows, length_map.
    f_equal. apply Rsum_ext. intros j Hj.
    rewrite (rectangular_nth bins features m Hrect) in Hj by lia.
    rewrite !nth_scale. now rewrite binLikelihood_scale by auto. }
  apply decision_eq.
  - rewrite !decide_speechFrames, length_map.
    apply map_ext_in. intros m Hin. now rewrite Havg.
  - rewrite !decide_logLikelihood, length_map.
    apply map_ext_in. exact Havg.
Qed.

(** X22: the detection does not depend on the gain: when the spectra all
    have the same number of bins and no bin of the estimated noise power is
    zero, multiplying every spectrum value by one positive factor leaves
    the decisions and the log-likelihoods unchanged. *)
Theorem detectFromFeatures_gain_invariant
    (bins : nat) (features : list (list R)) (sigmaN : list R) (c : R)
    (threshold : option R) :
  rectangular bins features -> 0 < c ->
  Detector.estimateNoiseVariance features Detector.defaultNoiseFrames = Returned sigmaN ->
  (forall j, (j < bins)%nat -> nth j sigmaN 0 <> 0) ->
  Detector.detectFromFeatures (map (map (Rmult c)) features) threshold
  = Detector.detectFromFeatures features threshold.
Proof.
  intros Hrect Hc Hs Hnz. unfold Detector.detectFromFeatures.
  rewrite (estimateNoiseVariance_scale bins features _ sigmaN c Hrect Hs), Hs.
  cbn [bind].
  rewrite (estimatePrioriSNR_scale bins features sigmaN Detector.defaultAlpha c Hrect
             (estimateNoiseVariance_nonneg _ _ _ Hs) Hnz
             ltac:(unfold Detector.defaultAlpha; lra) Hc).
  destruct (Detector.estimatePrioriSNR features sigmaN Detector.defaultAlpha) as [xi|e];
    [|reflexivity].
  cbn [bind]. f_equal.
  apply (decide_scale bins); [exact Hrect | exact Hnz | lra].
Qed.

(** An instance of X22: two spectra of one bin, gain 3. *)
Lemma detectFromFeatures_gain_invariant_witness :
  Detector.detectFromFeatures (map (map (Rmult 3)) [[1]; [2]]) None
  = Detector.detectFromFeatures [[1]; [2]] None.
Proof.
  destruct (estimateNoiseVariance_bins 1 [[1]; [2]] Detector.defaultNoiseFrames _
              ltac:(repeat constructor) eq_refl) as (_ & _ & Hbin).
  eapply (detectFromFeatures_gain_invariant 1 [[1]; [2]]);
    [repeat constructor | lra | reflexivity |].
  intros j Hj. rewrite (Hbin j Hj).
  assert (j = 0%nat) by lia. subst j.
  cbn [Nat.min Detector.defaultNoiseFrames length Rsum nth INR]. lra.
Defined.

Lemma sqrt_scale (c a b : R) :
  sqrt ((c * a) * (c * a) + (c * b) * (c * b)) = Rabs c * sqrt (a * a + b * b).
Proof.
  replace ((c * a) * (c * a) + (c * b) * (c * b))
    with (Rsqr c * (a * a + b * b)) by (unfold Rsqr; ring).
  rewrite sqrt_mult; [| apply Rle_0_sqr | nra].
  now rewrite sqrt_Rsqr_abs.
Qed.

(** X23: the transform is homogeneous: multiplying every sample of the
    frame by [c] multiplies every returned magnitude by [|c|]. *)
Theorem forward_homogeneous (fft : FFT.t) (input magnitude : list R) (c : R) :
  FFT.forward fft input = Returned magnitude ->
  FFT.forward fft (map (Rmult c) input) = Returned (map (Rmult (Rabs c)) magnitude).
Proof.
  intros Hret.
  assert (Hlen : length input = FFT.size fft).
  { rewrite forward_cases in Hret.
    destruct (Nat.eqb_spec (length input) (FFT.size fft)); [assumption | discriminate]. }
  rewrite (forward_bins (FFT.size fft) input fft eq_refl Hlen) in Hret.
  injection Hret as <-.
  rewrite (forward_bins (FFT.size fft) (map (Rmult c) input) fft eq_refl)
    by (now rewrite length_map).
  f_equal. rewrite map_map. apply map_ext. intros k.
  rewrite <- sqrt_scale. f_equal.
  rewrite !nth_scale.
  rewrite (Rsum_ext _ _ (fun j => c * (nth j input 0
             * cos (2 * PI * INR k * INR j / INR (FFT.size fft)))))
    by (intros j _; rewrite nth_scale; ring).
  rewrite (Rsum_ext _ (fun j => nth j (map (Rmult c) input) 0 * sin _)
             (fun j => c * (nth j input 0
                            * sin (2 * PI * INR k * INR j / INR (FFT.size fft)))))
    by (intros j _; rewrite nth_scale; ring).
  rewrite !Rsum_scale. ring.
Qed.

(** An instance of X23: the frame [1, 0] and the factor -3. *)
Lemma forward_homogeneous_witness :
  exists fft,
    FFT.new 2 = Returned fft
    /\ FFT.forward fft (map (Rmult (-3)) [1; 0])
       = Returned (map (Rmult (Rabs (-3))) [2; 1]).
Proof.
  eexists. split; [reflexivity|].
  apply forward_homogeneous.
  rewrite (forward_bins 2 [1; 0]) by reflexivity.
  cbn [map seq Rsum nth]. f_equal.
  f_equal; [|f_equal]; apply sqrt_of_square; try lra; zero_angles; ring.
Defined.
